(** * A shallow embedding of dnspython's core: serial numbers (dns/serial.py),
    the ordered set (dns/set.py), the immutable construction discipline
    (dns/_immutable_ctx.py) and the wire-format renderer (dns/renderer.py). *)

From Stdlib Require Import ZArith Lia List Bool.
From stdpp Require Import base list gmap strings sorting.
Import ListNotations.
Open Scope Z_scope.

(* ===================================================================== *)
(** ** dns/serial.py *)
(* ===================================================================== *)

Module Serial.

(** A [Serial] object: its two slots [value] and [bits].  The width is a
    natural number (a bit count). *)
Record Serial := mkSerial { value : Z; bits : N }.

(** [Serial.__init__]: [self.value = value % 2**bits]; Python's [%] with a
    positive modulus is floor modulo, i.e. [Z.modulo]. *)
Definition Serial_new (v : Z) (b : N) : Serial :=
  {| value := v mod 2 ^ Z.of_N b; bits := b |}.

(** [2 ** (self.bits - 1)].  For [bits = 0] Python yields [0.5]; the
    integer [0] used here gives the same comparison results because both
    values of a 0-bit serial are [0]. *)
Definition half (b : N) : Z := 2 ^ (Z.of_N b - 1).

(** The result of a rich-comparison method: a boolean or [NotImplemented]. *)
Inductive cmp_ret := Ret (b : bool) | NotImplemented.

(** An operand of a comparison or of an arithmetic method. *)
Inductive operand := OpSerial (s : Serial) | OpInt (z : Z) | OpOther.

(** [Serial.__eq__] *)
Definition serial_eq (self : Serial) (other : operand) : cmp_ret :=
  match other with
  | OpInt z => Ret (Z.eqb self.(value) (Serial_new z self.(bits)).(value))
  | OpSerial o =>
      if negb (N.eqb o.(bits) self.(bits)) then NotImplemented
      else Ret (Z.eqb self.(value) o.(value))
  | OpOther => NotImplemented
  end.

(** [Serial.__ne__] *)
Definition serial_ne (self : Serial) (other : operand) : cmp_ret :=
  match other with
  | OpInt z => Ret (negb (Z.eqb self.(value) (Serial_new z self.(bits)).(value)))
  | OpSerial o =>
      if negb (N.eqb o.(bits) self.(bits)) then NotImplemented
      else Ret (negb (Z.eqb self.(value) o.(value)))
  | OpOther => NotImplemented
  end.

(** The body of [__lt__] once both operands are same-width serials. *)
Definition lt_values (b : N) (sv ov : Z) : bool :=
  if (sv <? ov) && (ov - sv <? half b) then true
  else if (sv >? ov) && (sv - ov >? half b) then true
  else false.

(** The body of [__gt__] once both operands are same-width serials. *)
Definition gt_values (b : N) (sv ov : Z) : bool :=
  if (sv <? ov) && (ov - sv >? half b) then true
  else if (sv >? ov) && (sv - ov <? half b) then true
  else false.

(** [Serial.__lt__] *)
Definition serial_lt (self : Serial) (other : operand) : cmp_ret :=
  match other with
  | OpInt z => Ret (lt_values self.(bits) self.(value) (Serial_new z self.(bits)).(value))
  | OpSerial o =>
      if negb (N.eqb o.(bits) self.(bits)) then NotImplemented
      else Ret (lt_values self.(bits) self.(value) o.(value))
  | OpOther => NotImplemented
  end.

(** [Serial.__gt__] *)
Definition serial_gt (self : Serial) (other : operand) : cmp_ret :=
  match other with
  | OpInt z => Ret (gt_values self.(bits) self.(value) (Serial_new z self.(bits)).(value))
  | OpSerial o =>
      if negb (N.eqb o.(bits) self.(bits)) then NotImplemented
      else Ret (gt_values self.(bits) self.(value) o.(value))
  | OpOther => NotImplemented
  end.

(** ** Python's operator dispatch for two serial objects

    A serial object is a heap object with an identity.  The outcome of an
    operator expression is a boolean or a raised [TypeError]. *)
Record obj := mkObj { oid : nat; oval : Serial }.

Inductive py_result := PyBool (b : bool) | PyTypeError.

(** [a == b]: try [a.__eq__(b)], then the reflected [b.__eq__(a)]; when both
    return [NotImplemented], Python falls back to identity, [a is b]. *)
Definition py_eq (a b : obj) : py_result :=
  match serial_eq a.(oval) (OpSerial b.(oval)) with
  | Ret r => PyBool r
  | NotImplemented =>
      match serial_eq b.(oval) (OpSerial a.(oval)) with
      | Ret r => PyBool r
      | NotImplemented => PyBool (Nat.eqb a.(oid) b.(oid))
      end
  end.

(** [a != b]: same dispatch, falling back to [a is not b]. *)
Definition py_ne (a b : obj) : py_result :=
  match serial_ne a.(oval) (OpSerial b.(oval)) with
  | Ret r => PyBool r
  | NotImplemented =>
      match serial_ne b.(oval) (OpSerial a.(oval)) with
      | Ret r => PyBool r
      | NotImplemented => PyBool (negb (Nat.eqb a.(oid) b.(oid)))
      end
  end.

(** [a < b]: try [a.__lt__(b)], then the reflected [b.__gt__(a)]; when both
    return [NotImplemented], Python raises [TypeError]. *)
Definition py_lt (a b : obj) : py_result :=
  match serial_lt a.(oval) (OpSerial b.(oval)) with
  | Ret r => PyBool r
  | NotImplemented =>
      match serial_gt b.(oval) (OpSerial a.(oval)) with
      | Ret r => PyBool r
      | NotImplemented => PyTypeError
      end
  end.

(** [a > b]: [a.__gt__(b)], then the reflected [b.__lt__(a)]. *)
Definition py_gt (a b : obj) : py_result :=
  match serial_gt a.(oval) (OpSerial b.(oval)) with
  | Ret r => PyBool r
  | NotImplemented =>
      match serial_lt b.(oval) (OpSerial a.(oval)) with
      | Ret r => PyBool r
      | NotImplemented => PyTypeError
      end
  end.

(** Python's [x or y] on the results of two operator expressions, evaluated
    left to right (an exception in [x] propagates, [y] is skipped when [x]
    is true). *)
Definition py_or (x : py_result) (y : unit -> py_result) : py_result :=
  match x with
  | PyTypeError => PyTypeError
  | PyBool true => PyBool true
  | PyBool false => y tt
  end.

(** [Serial.__le__]: [self == other or self < other]. *)
Definition py_le (a b : obj) : py_result :=
  py_or (py_eq a b) (fun _ => py_lt a b).

(** [Serial.__ge__]: [self == other or self > other]. *)
Definition py_ge (a b : obj) : py_result :=
  py_or (py_eq a b) (fun _ => py_gt a b).

(** ** Arithmetic *)

Inductive arith_result := ArOk (s : Serial) | ArValueError.

(** [__add__]: returns [self.new_with_same_bits(v)]. *)
Definition serial_add (self : Serial) (other : operand) : arith_result :=
  let delta := match other with
               | OpSerial o => Some o.(value)
               | OpInt z => Some z
               | OpOther => None
               end in
  match delta with
  | None => ArValueError
  | Some d =>
      if Z.abs d >? half self.(bits) - 1 then ArValueError
      else ArOk (Serial_new ((self.(value) + d) mod 2 ^ Z.of_N self.(bits)) self.(bits))
  end.

(** [__iadd__]: [self.value = v]; [return self]. *)
Definition serial_iadd (self : Serial) (other : operand) : arith_result :=
  let delta := match other with
               | OpSerial o => Some o.(value)
               | OpInt z => Some z
               | OpOther => None
               end in
  match delta with
  | None => ArValueError
  | Some d =>
      if Z.abs d >? half self.(bits) - 1 then ArValueError
      else ArOk {| value := (self.(value) + d) mod 2 ^ Z.of_N self.(bits);
                   bits := self.(bits) |}
  end.

(** [__sub__] *)
Definition serial_sub (self : Serial) (other : operand) : arith_result :=
  let delta := match other with
               | OpSerial o => Some o.(value)
               | OpInt z => Some z
               | OpOther => None
               end in
  match delta with
  | None => ArValueError
  | Some d =>
      if Z.abs d >? half self.(bits) - 1 then ArValueError
      else ArOk (Serial_new ((self.(value) - d) mod 2 ^ Z.of_N self.(bits)) self.(bits))
  end.

(** [__isub__] *)
Definition serial_isub (self : Serial) (other : operand) : arith_result :=
  let delta := match other with
               | OpSerial o => Some o.(value)
               | OpInt z => Some z
               | OpOther => None
               end in
  match delta with
  | None => ArValueError
  | Some d =>
      if Z.abs d >? half self.(bits) - 1 then ArValueError
      else ArOk {| value := (self.(value) - d) mod 2 ^ Z.of_N self.(bits);
                   bits := self.(bits) |}
  end.

(** The representation invariant of a serial. *)
Definition valid (s : Serial) : Prop := 0 <= s.(value) < 2 ^ Z.of_N s.(bits).

(** A successful arithmetic result has width [w] and is valid. *)
Definition result_valid (w : N) (r : arith_result) : Prop :=
  match r with ArOk s => s.(bits) = w /\ valid s | ArValueError => True end.

(** Case analysis on the integer comparisons of a goal. *)
Ltac zcmp :=
  repeat rewrite ?Z.gtb_ltb in *;
  repeat match goal with
         | |- context [?a <? ?b] => destruct (Z.ltb_spec a b)
         end; simpl; try reflexivity; try lia.

Lemma pow_half (w : N) : (1 <= w)%N -> 2 ^ Z.of_N w = 2 * half w.
Proof.
  intros Hw. unfold half. rewrite <- Z.pow_succ_r by lia. f_equal. lia.
Qed.

Lemma half_pos (w : N) : (1 <= w)%N -> 0 < half w.
Proof. intros Hw. unfold half. apply Z.pow_pos_nonneg; lia. Qed.

Lemma half_zero : half 0 = 0.
Proof. reflexivity. Qed.

(** The two branches of [__lt__] compute the circular-distance rule. *)
Lemma lt_values_formula (w : N) (va vb : Z) :
  0 <= va < 2 ^ Z.of_N w -> 0 <= vb < 2 ^ Z.of_N w ->
  lt_values w va vb =
  (0 <? (vb - va) mod 2 ^ Z.of_N w) && ((vb - va) mod 2 ^ Z.of_N w <? half w).
Proof.
  intros Ha Hb. unfold lt_values.
  destruct (N.eq_dec w 0%N) as [->|Hw].
  - simpl in *. assert (va = 0) by lia. assert (vb = 0) by lia. subst. reflexivity.
  - pose proof (pow_half w ltac:(lia)) as HM. pose proof (half_pos w ltac:(lia)).
    rewrite HM in *.
    destruct (Z.lt_trichotomy va vb) as [Hlt|[Heq|Hgt]].
    + rewrite Z.mod_small by lia. zcmp.
    + subst. rewrite Z.sub_diag, Z.mod_0_l by lia. zcmp.
    + replace ((vb - va) mod (2 * half w)) with (vb - va + 2 * half w).
      2:{ rewrite <- (Z.mod_add (vb - va) 1) by lia. rewrite Z.mod_small by lia. lia. }
      zcmp.
Qed.

Lemma Serial_new_valid (v : Z) (b : N) : valid (Serial_new v b).
Proof.
  unfold valid, Serial_new. simpl. apply Z.mod_pos_bound. apply Z.pow_pos_nonneg; lia.
Qed.

Lemma mod_pow_valid (v : Z) (b : N) : valid {| value := v mod 2 ^ Z.of_N b; bits := b |}.
Proof. apply Serial_new_valid. Qed.

End Serial.

(* ===================================================================== *)
(** ** dns/set.py *)
(* ===================================================================== *)

Module PySet.

Section PySet.
Context {T : Type} `{EqDecision T}.

(** The [_clone_class] attribute seen from an instance of a class (by its
    class id): [hasattr(self, "_clone_class")] and its value. *)
Variable clone_class : nat -> option nat.

(** A [Set] object: its concrete class and its [items] dict, whose keys in
    insertion order are kept as a list (the values are all [None]). *)
Record SetObj := mkSetObj { cls : nat; items : list T }.

(** The Python heap of set objects, with the next fresh object id. *)
Record Heap := mkHeap { objs : gmap nat SetObj; next_id : nat }.

(** [Set.add]: [if item not in self.items: self.items[item] = None]. *)
Definition add_item (l : list T) (x : T) : list T :=
  if decide (x ∈ l) then l else l ++ [x].

(** [del self.items[item]] and [self.items.pop(item, None)]: the key goes. *)
Definition discard_item (l : list T) (x : T) : list T :=
  filter (fun y => y <> x) l.

(** Replace the [items] dict of object [i], keeping its class. *)
Definition set_items (h : Heap) (i : nat) (l : list T) : Heap :=
  match objs h !! i with
  | Some o => mkHeap (<[i := mkSetObj (cls o) l]> (objs h)) (next_id h)
  | None => h
  end.

(** An update method fails ([None], the [ValueError] of a non-[Set]
    argument) when an id is not a set object. *)

(** [Set.union_update] *)
Definition union_update (h : Heap) (s o : nat) : option Heap :=
  match objs h !! s, objs h !! o with
  | Some so, Some oo =>
      if decide (s = o) then Some h
      else Some (set_items h s (fold_left add_item (items oo) (items so)))
  | _, _ => None
  end.

(** [Set.intersection_update]: iterate over a copy of [self.items] and delete
    the items not in [other.items]. *)
Definition intersection_update (h : Heap) (s o : nat) : option Heap :=
  match objs h !! s, objs h !! o with
  | Some so, Some oo =>
      if decide (s = o) then Some h
      else Some (set_items h s
             (fold_left (fun acc x => if decide (x ∈ items oo) then acc
                                      else discard_item acc x)
                        (items so) (items so)))
  | _, _ => None
  end.

(** [Set.difference_update] *)
Definition difference_update (h : Heap) (s o : nat) : option Heap :=
  match objs h !! s, objs h !! o with
  | Some so, Some oo =>
      if decide (s = o) then Some (set_items h s [])
      else Some (set_items h s (fold_left discard_item (items oo) (items so)))
  | _, _ => None
  end.

(** [Set._clone]: a fresh object of class [self._clone_class] if present,
    else of [self.__class__], whose dict is a copy of [self.items]. *)
Definition clone (h : Heap) (s : nat) : option (Heap * nat) :=
  so ← objs h !! s;
  let c := match clone_class (cls so) with Some c => c | None => cls so end in
  let r := next_id h in
  Some (mkHeap (<[r := mkSetObj c (items so)]> (objs h)) (S r), r).

(** [Set.intersection] *)
Definition intersection (h : Heap) (s o : nat) : option (Heap * nat) :=
  '(h1, r) ← clone h s; h2 ← intersection_update h1 r o; Some (h2, r).

(** [Set.symmetric_difference_update]: the overlap is computed before the
    union mutates the receiver. *)
Definition symmetric_difference_update (h : Heap) (s o : nat) : option Heap :=
  match objs h !! s, objs h !! o with
  | Some _, Some _ =>
      if decide (s = o) then Some (set_items h s [])
      else '(h1, overlap) ← intersection h s o;
           h2 ← union_update h1 s o;
           difference_update h2 s overlap
  | _, _ => None
  end.

(** [Set.union] *)
Definition union (h : Heap) (s o : nat) : option (Heap * nat) :=
  '(h1, r) ← clone h s; h2 ← union_update h1 r o; Some (h2, r).

(** [Set.difference] *)
Definition difference (h : Heap) (s o : nat) : option (Heap * nat) :=
  '(h1, r) ← clone h s; h2 ← difference_update h1 r o; Some (h2, r).

(** [Set.symmetric_difference] *)
Definition symmetric_difference (h : Heap) (s o : nat) : option (Heap * nat) :=
  '(h1, r) ← clone h s; h2 ← symmetric_difference_update h1 r o; Some (h2, r).

(** [Set.__eq__] on two set objects: [self.items == other.items]; two dicts
    whose values are all [None] are equal when they have the same keys. *)
Definition set_eq (h : Heap) (a b : nat) : option bool :=
  A ← objs h !! a; B ← objs h !! b;
  Some (bool_decide (items A ⊆ items B /\ items B ⊆ items A)).

(** The non-update binary operations. *)
Inductive binop := OpUnion | OpIntersection | OpDifference | OpSymDiff.

Definition run_binop (op : binop) : Heap -> nat -> nat -> option (Heap * nat) :=
  match op with
  | OpUnion => union
  | OpIntersection => intersection
  | OpDifference => difference
  | OpSymDiff => symmetric_difference
  end.

(** The update methods, applied to a receiver with a set argument. *)
Inductive updop := UUnion | UIntersection | UDifference | USymDiff.

Definition run_update (op : updop) : Heap -> nat -> nat -> option Heap :=
  match op with
  | UUnion => union_update
  | UIntersection => intersection_update
  | UDifference => difference_update
  | USymDiff => symmetric_difference_update
  end.

(** The update method each binary operation runs on its clone. *)
Definition binop_update (op : binop) : updop :=
  match op with
  | OpUnion => UUnion
  | OpIntersection => UIntersection
  | OpDifference => UDifference
  | OpSymDiff => USymDiff
  end.

(** The Python expression [a.union(b).union(c) == a.union(b.union(c))],
    evaluated left to right. *)
Definition union_assoc_expr (h : Heap) (a b c : nat) : option bool :=
  '(h1, ab) ← union h a b; '(h2, l) ← union h1 ab c;
  '(h3, bc) ← union h2 b c; '(h4, r) ← union h3 a bc;
  set_eq h4 l r.

(** Every object id of the heap is below the next fresh id. *)
Definition heap_wf (h : Heap) : Prop :=
  forall i o, objs h !! i = Some o -> (i < next_id h)%nat.

(** *** Lemmas about the set model *)

Lemma elem_add_item (l : list T) (x y : T) : y ∈ add_item l x <-> y ∈ l \/ y = x.
Proof.
  unfold add_item. case_decide.
  - split; [tauto|]. intros [Hy| ->]; auto.
  - rewrite elem_of_app, list_elem_of_singleton. tauto.
Qed.

Lemma elem_discard_item (l : list T) (x y : T) : y ∈ discard_item l x <-> y ∈ l /\ y <> x.
Proof. unfold discard_item. rewrite list_elem_of_filter. tauto. Qed.

Lemma elem_fold_add (l acc : list T) (y : T) :
  y ∈ fold_left add_item l acc <-> y ∈ acc \/ y ∈ l.
Proof.
  revert acc. induction l as [|x l IH]; intros acc; simpl.
  - rewrite elem_of_nil. tauto.
  - rewrite IH, elem_add_item, elem_of_cons. tauto.
Qed.

Lemma elem_fold_discard (l acc : list T) (y : T) :
  y ∈ fold_left discard_item l acc <-> y ∈ acc /\ y ∉ l.
Proof.
  revert acc. induction l as [|x l IH]; intros acc; simpl.
  - rewrite elem_of_nil. tauto.
  - rewrite IH, elem_discard_item, elem_of_cons. tauto.
Qed.

Lemma elem_fold_keep (O l acc : list T) (y : T) :
  y ∈ fold_left (fun acc x => if decide (x ∈ O) then acc else discard_item acc x) l acc
  <-> y ∈ acc /\ (y ∈ l -> y ∈ O).
Proof.
  revert acc. induction l as [|x l IH]; intros acc; simpl.
  - rewrite elem_of_nil. tauto.
  - rewrite IH. case_decide as Hx.
    + rewrite elem_of_cons. split.
      * intros [H1 H2]. split; [done|]. intros [->|H3]; auto.
      * intros [H1 H2]. split; auto.
    + rewrite elem_discard_item, elem_of_cons. split.
      * intros [[H1 H2] H3]. split; [done|]. intros [->|H4]; [congruence|auto].
      * intros [H1 H2]. split; [split; [done|]|auto].
        intros ->. apply Hx, H2. by left.
Qed.

Lemma lookup_set_items (h : Heap) (i j : nat) (l : list T) :
  objs (set_items h i l) !! j =
  if decide (j = i) then (o ← objs h !! i; Some (mkSetObj (cls o) l)) else objs h !! j.
Proof.
  unfold set_items. destruct (objs h !! i) as [o|] eqn:E; simpl.
  - case_decide; subst; [by rewrite lookup_insert_eq|].
    rewrite lookup_insert_ne; congruence.
  - case_decide; subst; done.
Qed.

Lemma next_set_items (h : Heap) (i : nat) (l : list T) :
  next_id (set_items h i l) = next_id h.
Proof. unfold set_items. by destruct (objs h !! i). Qed.

Lemma wf_set_items (h : Heap) (i : nat) (l : list T) :
  heap_wf h -> heap_wf (set_items h i l).
Proof.
  intros Hwf j o. rewrite lookup_set_items, next_set_items. case_decide; subst.
  - destruct (objs h !! i) eqn:E; simpl; [|done]. intros _. eapply Hwf, E.
  - apply Hwf.
Qed.

Lemma clone_spec (h : Heap) (s : nat) (S0 : SetObj) :
  objs h !! s = Some S0 ->
  clone h s = Some (mkHeap (<[next_id h := mkSetObj
       (match clone_class (cls S0) with Some c => c | None => cls S0 end)
       (items S0)]> (objs h)) (S (next_id h)), next_id h).
Proof. intros E. unfold clone. rewrite E. reflexivity. Qed.

Lemma wf_clone (h h' : Heap) (s r : nat) :
  heap_wf h -> clone h s = Some (h', r) ->
  heap_wf h' /\ r = next_id h /\ next_id h' = S (next_id h) /\
  (forall j, (j < next_id h)%nat -> objs h' !! j = objs h !! j).
Proof.
  intros Hwf Hc. unfold clone in Hc. destruct (objs h !! s) as [so|]; simpl in Hc; [|done].
  injection Hc as <- <-. simpl. split; [|split; [done|split; [done|]]].
  - intros j o; simpl. destruct (decide (j = next_id h)) as [->|Hne]; [intros; lia|].
    rewrite lookup_insert_ne by congruence. intros E. specialize (Hwf _ _ E). lia.
  - intros j Hj. rewrite lookup_insert_ne by lia. done.
Qed.

(** An update method changes only its receiver among the objects that
    existed before, and allocates only fresh objects. *)
Lemma update_frame (op : updop) (h h' : Heap) (s o : nat) :
  heap_wf h -> run_update op h s o = Some h' ->
  heap_wf h' /\ (next_id h <= next_id h')%nat /\
  (forall j, j <> s -> (j < next_id h)%nat -> objs h' !! j = objs h !! j).
Proof.
  intros Hwf Hrun.
  assert (Hsi : forall l j, j <> s -> objs (set_items h s l) !! j = objs h !! j).
  { intros l j Hj. rewrite lookup_set_items. case_decide; [congruence|done]. }
  destruct op; simpl in Hrun.
  - unfold union_update in Hrun.
    destruct (objs h !! s), (objs h !! o); try done. case_decide; injection Hrun as <-.
    + split; [done|split; [lia|done]].
    + split; [by apply wf_set_items|]. rewrite next_set_items. split; [lia|]. auto.
  - unfold intersection_update in Hrun.
    destruct (objs h !! s), (objs h !! o); try done. case_decide; injection Hrun as <-.
    + split; [done|split; [lia|done]].
    + split; [by apply wf_set_items|]. rewrite next_set_items. split; [lia|]. auto.
  - unfold difference_update in Hrun.
    destruct (objs h !! s), (objs h !! o); try done. case_decide; injection Hrun as <-;
    (split; [by apply wf_set_items|]); rewrite next_set_items; (split; [lia|]); auto.
  - unfold symmetric_difference_update in Hrun.
    destruct (objs h !! s) eqn:Es, (objs h !! o); try done. case_decide.
    + injection Hrun as <-. split; [by apply wf_set_items|].
      rewrite next_set_items. split; [lia|]. auto.
    + unfold intersection in Hrun.
      destruct (clone h s) as [[h1 r]|] eqn:Ec; simpl in Hrun; [|done].
      destruct (wf_clone _ _ _ _ Hwf Ec) as (Hwf1 & -> & Hn1 & Hold1).
      destruct (intersection_update h1 (next_id h) o) as [h2|] eqn:Ei; simpl in Hrun; [|done].
      assert (F2 : forall j, j <> next_id h -> (j < next_id h1)%nat -> objs h2 !! j = objs h1 !! j
                   /\ heap_wf h2 /\ (next_id h1 <= next_id h2)%nat).
      { intros j Hj Hlt. unfold intersection_update in Ei.
        destruct (objs h1 !! next_id h), (objs h1 !! o); try done.
        case_decide; injection Ei as <-; [done|].
        rewrite lookup_set_items, next_set_items. case_decide; [congruence|].
        split; [done|]. split; [by apply wf_set_items|lia]. }
      destruct (union_update h2 s o) as [h3|] eqn:Eu; simpl in Hrun; [|done].
      unfold union_update in Eu. unfold difference_update in Hrun.
      assert (Hs1 : (s < next_id h)%nat) by (eapply Hwf, Es).
      destruct (F2 s ltac:(lia) ltac:(lia)) as (Es2 & Hwf2 & Hn2).
      destruct (objs h2 !! s) eqn:E2s, (objs h2 !! o); try done.
      destruct (decide (s = o)) as [|Hso]; [congruence|]. injection Eu as <-.
      rewrite !lookup_set_items in Hrun.
      destruct (decide (next_id h = s)) as [|Hns]; [lia|].
      destruct (decide (s = s)) as [_|]; [|congruence].
      rewrite E2s in Hrun. simpl in Hrun.
      destruct (objs h2 !! next_id h); try done.
      destruct (decide (s = next_id h)); [lia|].
      injection Hrun as <-.
      split; [by do 2 apply wf_set_items|]. rewrite !next_set_items. split; [lia|].
      intros j Hj Hlt. rewrite !lookup_set_items. case_decide; [congruence|].
      destruct (F2 j ltac:(lia) ltac:(lia)) as (-> & _). apply Hold1. done.
Qed.

Lemma set_items_some (h : Heap) (i : nat) (o : SetObj) (l : list T) :
  objs h !! i = Some o ->
  set_items h i l = mkHeap (<[i := mkSetObj (cls o) l]> (objs h)) (next_id h).
Proof. intros E. unfold set_items. by rewrite E. Qed.

Lemma wf_lookup_ne (h : Heap) (i : nat) (o : SetObj) :
  heap_wf h -> objs h !! i = Some o -> i <> next_id h.
Proof. intros Hwf E. specialize (Hwf _ _ E). lia. Qed.

(** The result of [a.union(b)]: a fresh object holding [a]'s items followed
    by [b]'s new ones, with all older objects unchanged. *)
Lemma union_spec (h : Heap) (a b : nat) (A B : SetObj) :
  heap_wf h -> objs h !! a = Some A -> objs h !! b = Some B ->
  exists h' R, union h a b = Some (h', next_id h) /\ objs h' !! next_id h = Some R /\
    items R = fold_left add_item (items B) (items A) /\
    heap_wf h' /\ next_id h' = S (next_id h) /\
    (forall j, (j < next_id h)%nat -> objs h' !! j = objs h !! j).
Proof.
  intros Hwf Ea Eb. pose proof (wf_lookup_ne _ _ _ Hwf Eb) as Hb.
  unfold union. rewrite (clone_spec _ _ _ Ea). simpl.
  unfold union_update. simpl. rewrite lookup_insert_eq, lookup_insert_ne by congruence.
  rewrite Eb. destruct (decide (next_id h = b)); [congruence|]. simpl.
  erewrite set_items_some by (simpl; apply lookup_insert_eq). simpl.
  eexists _, _. split; [reflexivity|]. split; [apply lookup_insert_eq|].
  split; [reflexivity|]. split; [|split; [reflexivity|]].
  - intros j o. simpl. destruct (decide (j = next_id h)) as [->|Hne]; [intros; lia|].
    rewrite !lookup_insert_ne by congruence. intros E. specialize (Hwf _ _ E). lia.
  - intros j Hj. simpl. rewrite !lookup_insert_ne by lia. reflexivity.
Qed.

(** Lookups in a heap given as a chain of insertions. *)
Ltac heap_lk :=
  repeat (cbn [objs next_id items cls] in *;
    match goal with
    | |- context [<[?i := ?x]> ?m !! ?j] =>
        first [ rewrite (lookup_insert_eq m i x)
              | rewrite (lookup_insert_ne m i j x) by lia ]
    | |- context [decide (?i = ?j)] =>
        first [ rewrite (decide_True (P := i = j)) by reflexivity
              | rewrite (decide_False (P := i = j)) by lia ]
    | H : objs ?h !! ?i = Some _ |- context [objs ?h !! ?i] => rewrite H
    end).

(** [a.difference(a)] is an empty set. *)
Lemma difference_self_spec (h : Heap) (a : nat) (A : SetObj) :
  heap_wf h -> objs h !! a = Some A ->
  exists h' R, difference h a a = Some (h', next_id h) /\
    objs h' !! next_id h = Some R /\ items R = [].
Proof.
  intros Hwf Ea. pose proof (Hwf _ _ Ea) as Ha.
  unfold difference. rewrite (clone_spec _ _ _ Ea). simpl.
  unfold difference_update, set_items. heap_lk. simpl.
  eexists _, _. split; [reflexivity|]. heap_lk. split; [reflexivity|]. simpl.
  apply elem_of_nil_inv. intros x. rewrite elem_fold_discard. tauto.
Qed.

(** [a.symmetric_difference(a)] is an empty set. *)
Lemma symmetric_difference_self_spec (h : Heap) (a : nat) (A : SetObj) :
  heap_wf h -> objs h !! a = Some A ->
  exists h' R, symmetric_difference h a a = Some (h', next_id h) /\
    objs h' !! next_id h = Some R /\ items R = [].
Proof.
  intros Hwf Ea. pose proof (Hwf _ _ Ea) as Ha.
  unfold symmetric_difference. rewrite (clone_spec _ _ _ Ea). simpl.
  unfold symmetric_difference_update. heap_lk. simpl.
  unfold intersection, clone. heap_lk. simpl.
  unfold intersection_update, set_items. heap_lk. simpl.
  unfold union_update, set_items. heap_lk. simpl.
  unfold difference_update, set_items. heap_lk. simpl.
  eexists _, _. split; [reflexivity|]. heap_lk. split; [reflexivity|]. simpl.
  apply elem_of_nil_inv. intros x.
  rewrite elem_fold_discard, elem_fold_add, elem_fold_keep. tauto.
Qed.

(** An update method on two existing objects succeeds and keeps the
    receiver's class. *)
Lemma update_total (op : updop) (h : Heap) (s o : nat) (S0 O : SetObj) :
  heap_wf h -> objs h !! s = Some S0 -> objs h !! o = Some O ->
  exists h' S', run_update op h s o = Some h' /\ objs h' !! s = Some S' /\ cls S' = cls S0.
Proof.
  intros Hwf Es Eo. pose proof (Hwf _ _ Es). pose proof (Hwf _ _ Eo).
  destruct (decide (s = o)) as [<-|Hso].
  - assert (O = S0) by congruence. subst O. clear Eo. destruct op; simpl.
    + unfold union_update. heap_lk. eauto.
    + unfold intersection_update. heap_lk. eauto.
    + unfold difference_update, set_items. heap_lk. eexists _, _. split; [reflexivity|].
      heap_lk. eauto.
    + unfold symmetric_difference_update, set_items. heap_lk. eexists _, _.
      split; [reflexivity|]. heap_lk. eauto.
  - destruct op; simpl.
    + unfold union_update, set_items. heap_lk. eexists _, _. split; [reflexivity|].
      heap_lk. eauto.
    + unfold intersection_update, set_items. heap_lk. eexists _, _. split; [reflexivity|].
      heap_lk. eauto.
    + unfold difference_update, set_items. heap_lk. eexists _, _. split; [reflexivity|].
      heap_lk. eauto.
    + unfold symmetric_difference_update. heap_lk.
      unfold intersection, clone. heap_lk. simpl.
      unfold intersection_update, set_items. heap_lk. simpl.
      unfold union_update, set_items. heap_lk. simpl.
      unfold difference_update, set_items. heap_lk. simpl.
      eexists _, _. split; [reflexivity|]. heap_lk. eauto.
Qed.

Lemma run_binop_clone (op : binop) (h : Heap) (a b : nat) :
  run_binop op h a b =
  '(h1, r) ← clone h a; h2 ← run_update (binop_update op) h1 r b; Some (h2, r).
Proof. destruct op; reflexivity. Qed.

End PySet.

End PySet.

(* ===================================================================== *)
(** ** dns/_immutable_ctx.py *)
(* ===================================================================== *)

Module Immutable.

Section Immutable.
Context {V : Type}.

(** Statements that touch objects of an [@immutable] class:
    - [SetAttr o n v] is [o.n = v], i.e. [_Immutable.__setattr__];
    - [DelAttr o n] is [del o.n], i.e. [_Immutable.__delattr__];
    - [Init o body] calls a method wrapped by [_immutable_init] ([__init__]
      or [__setstate__]) on [o], whose body runs [body];
    - [Raise] is any other exception raised by the body. *)
Inductive stmt :=
  | SetAttr (o : nat) (n : string) (v : V)
  | DelAttr (o : nat) (n : string)
  | Init (o : nat) (body : prog)
  | Raise
with prog :=
  | PNil
  | PCons (s : stmt) (rest : prog).

Inductive exn := TypeError | AttributeError | OtherError.
Inductive outcome := Ok | Exc (e : exn).

(** The context variable [_in__init__] ([None] is its default [False]) and
    the slots of every object. *)
Record State := mkState { in_init : option nat; heap : gmap nat (gmap string V) }.

Definition set_slot (st : State) (o : nat) (n : string) (v : V) : State :=
  mkState (in_init st) (<[o := <[n := v]> (default ∅ (heap st !! o))]> (heap st)).

Definition del_slot (st : State) (o : nat) (n : string) : State :=
  mkState (in_init st) (<[o := delete n (default ∅ (heap st !! o))]> (heap st)).

(** [_in__init__.get() is not self]: identity with the object being
    initialised. *)
Definition is_self (ctx : option nat) (o : nat) : bool :=
  match ctx with Some c => Nat.eqb c o | None => false end.

Fixpoint exec (s : stmt) (st : State) {struct s} : outcome * State :=
  match s with
  | SetAttr o n v =>
      if is_self (in_init st) o then (Ok, set_slot st o n v)
      else (Exc TypeError, st)
  | DelAttr o n =>
      if is_self (in_init st) o then
        match default ∅ (heap st !! o) !! n with
        | Some _ => (Ok, del_slot st o n)
        | None => (Exc AttributeError, st)
        end
      else (Exc TypeError, st)
  | Init o body =>
      (* previous = _in__init__.set(_self); try: f(...) finally: reset *)
      let previous := in_init st in
      let '(r, st1) := exec_prog body (mkState (Some o) (heap st)) in
      (r, mkState previous (heap st1))
  | Raise => (Exc OtherError, st)
  end
with exec_prog (p : prog) (st : State) {struct p} : outcome * State :=
  match p with
  | PNil => (Ok, st)
  | PCons s rest =>
      let '(r, st1) := exec s st in
      match r with
      | Ok => exec_prog rest st1
      | Exc e => (Exc e, st1)
      end
  end.

(** Does the statement call a wrapped initialiser on [o] at any depth? *)
Fixpoint inits (o : nat) (s : stmt) : bool :=
  match s with
  | Init o' body => Nat.eqb o' o || inits_prog o body
  | _ => false
  end
with inits_prog (o : nat) (p : prog) : bool :=
  match p with
  | PNil => false
  | PCons s rest => inits o s || inits_prog o rest
  end.

Scheme stmt_mut := Induction for stmt Sort Prop
  with prog_mut := Induction for prog Sort Prop.
Combined Scheme stmt_prog_mut from stmt_mut, prog_mut.

(** A wrapped call restores the context variable (its [finally] clause), so
    no statement changes it. *)
Lemma exec_in_init :
  (forall s st, in_init (snd (exec s st)) = in_init st) /\
  (forall p st, in_init (snd (exec_prog p st)) = in_init st).
Proof.
  apply stmt_prog_mut; simpl.
  - intros o n v st. destruct (is_self _ _); reflexivity.
  - intros o n st. destruct (is_self _ _); [|reflexivity].
    destruct (_ !! n); reflexivity.
  - intros o body IH st. destruct (exec_prog body _). reflexivity.
  - reflexivity.
  - reflexivity.
  - intros s IHs rest IHr st. specialize (IHs st).
    destruct (exec s st) as [r st1]. simpl in IHs. destruct r; simpl; [|done].
    rewrite IHr. done.
Qed.

Lemma is_self_ne (ctx : option nat) (o o' : nat) :
  is_self ctx o' = true -> is_self ctx o = false -> o' <> o.
Proof.
  destruct ctx as [c|]; simpl; [|done].
  intros H1 H2 ->. congruence.
Qed.

(** Statements run while [o]'s initialiser is not the running one, and
    which call no wrapped initialiser on [o], leave [o]'s slots as they
    are. *)
Lemma exec_frozen (o : nat) :
  (forall s st, is_self (in_init st) o = false -> inits o s = false ->
     heap (snd (exec s st)) !! o = heap st !! o) /\
  (forall p st, is_self (in_init st) o = false -> inits_prog o p = false ->
     heap (snd (exec_prog p st)) !! o = heap st !! o).
Proof.
  set (Ps := fun s => forall st, is_self (in_init st) o = false -> inits o s = false ->
     heap (snd (exec s st)) !! o = heap st !! o).
  set (Pp := fun p => forall st, is_self (in_init st) o = false -> inits_prog o p = false ->
     heap (snd (exec_prog p st)) !! o = heap st !! o).
  apply (stmt_prog_mut Ps Pp); unfold Ps, Pp; clear Ps Pp; simpl.
  - intros o' n v st Hs _. destruct (is_self _ o') eqn:E; [|done].
    pose proof (is_self_ne _ _ _ E Hs). simpl. rewrite lookup_insert_ne; congruence.
  - intros o' n st Hs _. destruct (is_self _ o') eqn:E; [|done].
    pose proof (is_self_ne _ _ _ E Hs). destruct (_ !! n); [|done].
    simpl. rewrite lookup_insert_ne; congruence.
  - intros o' body IH st Hs Hi. apply orb_false_iff in Hi as [Ho Hb].
    apply Nat.eqb_neq in Ho.
    specialize (IH (mkState (Some o') (heap st))). simpl in IH.
    destruct (exec_prog body _) as [r st1]. simpl in *.
    apply IH; [apply Nat.eqb_neq; done|done].
  - done.
  - done.
  - intros s IHs rest IHr st Hs Hi. apply orb_false_iff in Hi as [Hi1 Hi2].
    pose proof (proj1 exec_in_init s st) as Hc.
    specialize (IHs st Hs Hi1).
    destruct (exec s st) as [r st1]. simpl in *. destruct r; simpl; [|done].
    rewrite IHr; [done| rewrite Hc; done | done].
Qed.

End Immutable.

End Immutable.

(* ===================================================================== *)
(** ** dns/renderer.py *)
(* ===================================================================== *)

Module Renderer.

(** [QUESTION = 0], [ANSWER = 1], [AUTHORITY = 2], [ADDITIONAL = 3]
    ([SectionInt] is [Literal[0, 1, 2, 3]]). *)
Inductive section := QUESTION | ANSWER | AUTHORITY | ADDITIONAL.

Global Instance section_eq_dec : EqDecision section.
Proof. solve_decision. Defined.

Definition section_index (s : section) : nat :=
  match s with QUESTION => 0 | ANSWER => 1 | AUTHORITY => 2 | ADDITIONAL => 3 end.

(** An [io.BytesIO]: its contents and its stream position. *)
Record BytesIO := mkBytesIO { buf : list Z; pos : nat }.

(** [BytesIO.write]: overwrite from the position (zero-filling a gap past
    the end) and advance the position. *)
Definition bio_write (b : BytesIO) (bs : list Z) : BytesIO :=
  let padded := buf b ++ replicate (pos b - length (buf b)) 0 in
  mkBytesIO (take (pos b) padded ++ bs ++ drop (pos b + length bs) padded)
            (pos b + length bs).

(** [BytesIO.seek(where)] *)
Definition bio_seek (b : BytesIO) (where_ : nat) : BytesIO := mkBytesIO (buf b) where_.

(** [BytesIO.truncate()]: cut the contents at the current position. *)
Definition bio_truncate (b : BytesIO) : BytesIO := mkBytesIO (take (pos b) (buf b)) (pos b).

(** A domain name, by its labels. *)
Definition name := list string.


(** EDNS options and the rdata kinds the renderer inspects. *)
Inductive edns_option := GenericOption (otype : Z) (data : list Z).

(** [dns.edns.OptionType.PADDING] *)
Definition PADDING : Z := 12.

(** [dns.rdatatype.OPT] *)
Definition OPT_TYPE : Z := 41.

Inductive rdata :=
  | OPT (rdclass : Z) (options : list edns_option)
  | OtherRdata (rdtype rdclass : Z) (payload : list Z).

(** An [RRset]: owner name, TTL, type, class and its rdatas in order. *)
Record rrset := mkRRset {
  rr_name : name; rr_ttl : Z; rr_rdtype : Z; rr_rdclass : Z; rr_rdatas : list rdata }.

(** [dns.name.root] *)
Definition root : name := [].

(** [_make_opt(flags, payload, options)]: [dns.rrset.from_rdata(root, flags,
    OPT(payload, OPT, options))]. *)
Definition _make_opt (flags payload : Z) (options : list edns_option) : rrset :=
  mkRRset root flags OPT_TYPE payload [OPT payload options].

Inductive exn := FormError | TooBig | AssertionError | IndexError | StructError.

(** The renderer's attributes. *)
Record Renderer := mkRenderer {
  id : Z; flags : Z; max_size : Z; origin : option name;
  compress : gmap name nat; section_ : section; counts : list Z;
  output : BytesIO; reserved : Z; was_padded : bool }.

Definition set_output (r : Renderer) (o : BytesIO) : Renderer :=
  mkRenderer (id r) (flags r) (max_size r) (origin r) (compress r) (section_ r)
             (counts r) o (reserved r) (was_padded r).
Definition set_compress (r : Renderer) (c : gmap name nat) : Renderer :=
  mkRenderer (id r) (flags r) (max_size r) (origin r) c (section_ r)
             (counts r) (output r) (reserved r) (was_padded r).
Definition set_section_field (r : Renderer) (s : section) : Renderer :=
  mkRenderer (id r) (flags r) (max_size r) (origin r) (compress r) s
             (counts r) (output r) (reserved r) (was_padded r).
Definition set_counts (r : Renderer) (c : list Z) : Renderer :=
  mkRenderer (id r) (flags r) (max_size r) (origin r) (compress r) (section_ r)
             c (output r) (reserved r) (was_padded r).
Definition set_was_padded (r : Renderer) (b : bool) : Renderer :=
  mkRenderer (id r) (flags r) (max_size r) (origin r) (compress r) (section_ r)
             (counts r) (output r) (reserved r) b.

(** Methods of the renderer: state passing with Python exceptions; the
    attribute changes made before a [raise] are kept. *)
Definition M (A : Type) : Type := Renderer -> (exn + A) * Renderer.

Global Instance M_ret : MRet M := fun A x r => (inr x, r).
Global Instance M_bind : MBind M := fun A B f m r =>
  match m r with
  | (inr x, r1) => f x r1
  | (inl e, r1) => (inl e, r1)
  end.

Definition raise {A} (e : exn) : M A := fun r => (inl e, r).
Definition gets {A} (f : Renderer -> A) : M A := fun r => (inr (f r), r).
Definition modify (f : Renderer -> Renderer) : M unit := fun r => (inr tt, f r).

(** [self.output.write(bs)] *)
Definition write (bs : list Z) : M unit :=
  modify (fun r => set_output r (bio_write (output r) bs)).

(** [struct.pack("!H", v)]: [struct.error] out of range. *)
Definition pack_H (v : Z) : M (list Z) :=
  if (0 <=? v) && (v <? 65536) then mret [v / 256; v mod 256] else raise StructError.

(** [struct.pack("!HH...", vs...)]: every value is checked before anything is
    returned. *)
Fixpoint pack_Hs (vs : list Z) : M (list Z) :=
  match vs with
  | [] => mret []
  | v :: vs' => b ← pack_H v; bs ← pack_Hs vs'; mret (b ++ bs)
  end.

(** [Renderer._rollback] *)
Definition _rollback (where_ : nat) : M unit :=
  modify (fun r =>
    let r1 := set_output r (bio_truncate (bio_seek (output r) where_)) in
    set_compress r1 (filter (fun kv : name * nat => (kv.2 < where_)%nat) (compress r1))).

(** [Renderer._set_section] *)
Definition _set_section (s : section) : M unit :=
  fun r =>
    if decide (section_ r <> s) then
      if decide (section_index s < section_index (section_ r))%nat then (inl FormError, r)
      else (inr tt, set_section_field r s)
    else (inr tt, r).

(** [Renderer._track_size] around a [with] body: an exception of the body
    propagates as is; otherwise an oversized output is rolled back and
    [TooBig] raised. *)
Definition _track_size {A} (body : M A) : M A :=
  start ← gets (fun r => pos (output r));
  x ← body;
  size ← gets (fun r => pos (output r));
  ms ← gets max_size;
  if Z.of_nat size >? ms then (_ ← _rollback start; raise TooBig) else mret x.

(** [Renderer._temporarily_seek_to]: the position is restored in a
    [finally] clause, also when the body raises. *)
Definition _temporarily_seek_to {A} (where_ : nat) (body : M A) : M A :=
  fun r =>
    let current := pos (output r) in
    let '(res, r1) := body (set_output r (bio_seek (output r) where_)) in
    (res, set_output r1 (bio_seek (output r1) current)).

(** [self.counts[section] += n] *)
Definition add_count (s : section) (n : Z) : M unit :=
  modify (fun r => set_counts r
    (<[section_index s := counts r !!! section_index s + n]> (counts r))).

(** [Renderer.__init__] with an explicit id: twelve zero bytes reserved
    for the header. *)
Definition init (id_ flags_ max_size_ : Z) (origin_ : option name) : Renderer :=
  mkRenderer id_ flags_ max_size_ origin_ ∅ QUESTION [0; 0; 0; 0]
             (mkBytesIO (replicate 12 0) 12) 0 false.

(** [Renderer.write_header] *)
Definition write_header : M unit :=
  _temporarily_seek_to 0
    (vals ← gets (fun r => [id r; flags r; counts r !!! 0; counts r !!! 1;
                            counts r !!! 2; counts r !!! 3]%nat);
     bs ← pack_Hs vals; write bs).

(** [Renderer.get_wire] *)
Definition get_wire (r : Renderer) : list Z := buf (output r).

(** An [Rdataset]: class, type, TTL and its rdatas in order. *)
Record rdataset := mkRdataset {
  rds_rdclass : Z; rds_rdtype : Z; rds_ttl : Z; rds_rdatas : list rdata }.

(** Modelled from the spec: the Record Codec Contract (§6), whose code
    ([dns.name.Name.to_wire], [dns.rrset.RRset.to_wire],
    [dns.rdataset.Rdataset.to_wire]) is not part of the renderer.  Each
    serializer is given the compression table, the origin and the current
    write position; it returns the bytes it writes there, the compression
    table it leaves behind and (for record sets) the number of records it
    wrote. *)
Record codec := mkCodec {
  name_to_wire : name -> gmap name nat -> option name -> nat -> list Z * gmap name nat;
  rrset_to_wire : rrset -> gmap name nat -> option name -> nat ->
                  list Z * gmap name nat * Z;
  rdataset_to_wire : name -> rdataset -> gmap name nat -> option name -> nat ->
                     list Z * gmap name nat * Z }.

Section Methods.
Context (cd : codec).

(** [qname.to_wire(self.output, self.compress, self.origin)] *)
Definition write_name (qname : name) : M unit :=
  fun r =>
    let '(bs, c) := name_to_wire cd qname (compress r) (origin r) (pos (output r)) in
    (inr tt, set_compress (set_output r (bio_write (output r) bs)) c).

(** [rrset.to_wire(file=self.output, compress=self.compress, origin=self.origin)] *)
Definition write_rrset (rr : rrset) : M Z :=
  fun r =>
    let '(bs, c, n) := rrset_to_wire cd rr (compress r) (origin r) (pos (output r)) in
    (inr n, set_compress (set_output r (bio_write (output r) bs)) c).

(** [rdataset.to_wire(name=name, file=self.output, compress=self.compress,
    origin=self.origin)] *)
Definition write_rdataset (nm : name) (rd : rdataset) : M Z :=
  fun r =>
    let '(bs, c, n) :=
      rdataset_to_wire cd nm rd (compress r) (origin r) (pos (output r)) in
    (inr n, set_compress (set_output r (bio_write (output r) bs)) c).

(** [Renderer.add_question] *)
Definition add_question (qname : name) (rdtype rdclass : Z) : M unit :=
  _ ← _set_section QUESTION;
  _ ← _track_size (_ ← write_name qname; bs ← pack_Hs [rdtype; rdclass]; write bs);
  add_count QUESTION 1.

(** [Renderer.add_rrset] *)
Definition add_rrset (s : section) (rr : rrset) : M unit :=
  _ ← _set_section s;
  n ← _track_size (write_rrset rr);
  add_count s n.

(** [Renderer.add_rdataset] *)
Definition add_rdataset (s : section) (nm : name) (rd : rdataset) : M unit :=
  _ ← _set_section s;
  n ← _track_size (write_rdataset nm rd);
  add_count s n.

(** [Renderer.add_opt]: [opt[0]] is the first rdata of the RRset ([IndexError]
    when it has none); [b"\x00" * k] is empty for [k <= 0]. *)
Definition add_opt (opt : rrset) (pad opt_size tsig_size : Z) : M unit :=
  if decide (pad <> 0) then
    let ttl := rr_ttl opt in
    if opt_size >=? 11 then
      match rr_rdatas opt with
      | [] => raise IndexError
      | OPT rdclass options :: _ =>
          size ← gets (fun r => Z.of_nat (pos (output r)));
          let size_without_padding := size + opt_size + tsig_size in
          let remainder := size_without_padding mod pad in
          let pad_b := if decide (remainder <> 0)
                       then replicate (Z.to_nat (pad - remainder)) 0 else [] in
          let options' := options ++ [GenericOption PADDING pad_b] in
          let opt' := _make_opt ttl rdclass options' in
          _ ← modify (fun r => set_was_padded r true);
          add_rrset ADDITIONAL opt'
      | _ :: _ => raise AssertionError
      end
    else raise AssertionError
  else add_rrset ADDITIONAL opt.

(** The content-adding calls. *)
Inductive call :=
  | AddQuestion (qname : name) (rdtype rdclass : Z)
  | AddRRset (s : section) (rr : rrset)
  | AddRdataset (s : section) (nm : name) (rd : rdataset).

Definition run_call (c : call) : M unit :=
  match c with
  | AddQuestion q t k => add_question q t k
  | AddRRset s rr => add_rrset s rr
  | AddRdataset s nm rd => add_rdataset s nm rd
  end.

Definition call_section (c : call) : section :=
  match c with
  | AddQuestion _ _ _ => QUESTION
  | AddRRset s _ => s
  | AddRdataset s _ _ => s
  end.

(** What the body of a call's [_track_size] block hands to the output and
    the compression table, from the state [r] it starts in: the bytes
    written at the current position and the table left behind. *)
Definition call_write (c : call) (r : Renderer) : list Z * gmap name nat :=
  match c with
  | AddQuestion q t k =>
      let '(bs, c1) := name_to_wire cd q (compress r) (origin r) (pos (output r)) in
      (bs ++ [t / 256; t mod 256; k / 256; k mod 256], c1)
  | AddRRset _ rr =>
      let '(bs, c1, _) := rrset_to_wire cd rr (compress r) (origin r) (pos (output r)) in
      (bs, c1)
  | AddRdataset _ nm rd =>
      let '(bs, c1, _) :=
        rdataset_to_wire cd nm rd (compress r) (origin r) (pos (output r)) in
      (bs, c1)
  end.

(** The number of records a call appends, as its serializer reports it:
    one for a question. *)
Definition call_records (c : call) (r : Renderer) : Z :=
  match c with
  | AddQuestion _ _ _ => 1
  | AddRRset _ rr =>
      let '(_, _, n) := rrset_to_wire cd rr (compress r) (origin r) (pos (output r)) in n
  | AddRdataset _ nm rd =>
      let '(_, _, n) :=
        rdataset_to_wire cd nm rd (compress r) (origin r) (pos (output r)) in n
  end.

(** A sequence of calls, logging the section and the records of each. *)
Fixpoint run_calls (cs : list call) : M (list (section * Z)) :=
  match cs with
  | [] => mret []
  | c :: cs' =>
      r ← gets (fun r => r);
      _ ← run_call c;
      log ← run_calls cs';
      mret ((call_section c, call_records c r) :: log)
  end.

End Methods.

(** Modelled from the spec: big-endian 16- and 32-bit fields (§6). *)
Definition be16 (v : Z) : list Z := [Z.shiftr v 8; Z.land v 255].

Definition be32 (v : Z) : list Z :=
  [Z.land (Z.shiftr v 24) 255; Z.land (Z.shiftr v 16) 255;
   Z.land (Z.shiftr v 8) 255; Z.land v 255].

(** Modelled from the spec: a name on the wire with RFC 1035 compression.
    A suffix already in the table becomes a pointer; otherwise its offset
    is recorded (when a pointer can reach it) and its label written; the
    root ends the name. *)
Fixpoint spec_name_to_wire (labels : name) (c : gmap name nat) (p : nat)
    : list Z * gmap name nat :=
  match labels with
  | [] => ([0], c)
  | l :: rest =>
      match c !! labels with
      | Some off => ([192 + Z.of_nat off / 256; Z.of_nat off mod 256], c)
      | None =>
          let c1 := if decide (Z.of_nat p <= 16383) then <[labels := p]> c else c in
          let lb := Z.of_nat (String.length l)
                    :: map (fun a => Z.of_N (Ascii.N_of_ascii a)) (String.list_ascii_of_string l) in
          let '(bs, c2) := spec_name_to_wire rest c1 (p + length lb) in
          (lb ++ bs, c2)
      end
  end.

(** Modelled from the spec: an EDNS option is its code, a 2-byte length
    and its data (§6). *)
Definition option_wire (o : edns_option) : list Z :=
  match o with GenericOption t d => be16 t ++ be16 (Z.of_nat (length d)) ++ d end.

Definition rdata_wire (rd : rdata) : list Z :=
  match rd with
  | OPT _ opts => concat (map option_wire opts)
  | OtherRdata _ _ payload => payload
  end.

(** Modelled from the spec: one resource record per rdata: owner name,
    type, class, TTL, rdata length and rdata. *)
Fixpoint spec_rdatas_to_wire (owner : name) (ttl rdtype rdclass : Z) (rds : list rdata)
    (c : gmap name nat) (p : nat) : list Z * gmap name nat * Z :=
  match rds with
  | [] => ([], c, 0)
  | rd :: rest =>
      let '(nb, c1) := spec_name_to_wire owner c p in
      let body := rdata_wire rd in
      let rec_ := nb ++ be16 rdtype ++ be16 rdclass ++ be32 ttl
                  ++ be16 (Z.of_nat (length body)) ++ body in
      let '(bs, c2, n) :=
        spec_rdatas_to_wire owner ttl rdtype rdclass rest c1 (p + length rec_) in
      (rec_ ++ bs, c2, n + 1)
  end.

(** Modelled from the spec: the codec the end-to-end example runs on. *)
Definition spec_codec : codec :=
  mkCodec (fun n c _ p => spec_name_to_wire n c p)
          (fun rr c _ p => spec_rdatas_to_wire (rr_name rr) (rr_ttl rr) (rr_rdtype rr)
                             (rr_rdclass rr) (rr_rdatas rr) c p)
          (fun nm rd c _ p => spec_rdatas_to_wire nm (rds_ttl rd) (rds_rdtype rd)
                                (rds_rdclass rd) (rds_rdatas rd) c p).

(** A message with the question [a. A IN], no answers, and an empty OPT
    record (payload 1232) padded to 128 bytes, the OPT record being
    precomputed at 15 bytes (11 for the record, 4 for the padding option's
    header), then the header written. *)
Definition padded_example : (exn + unit) * Renderer :=
  (_ ← add_question spec_codec ["a"%string] 1 1;
   _ ← add_opt spec_codec (_make_opt 0 1232 []) 128 15 0;
   write_header) (init 4660 256 65535 None).

End Renderer.

Module PySetMore.
Import PySet.

Section PySetMore.
Context {T : Type} `{EqDecision T}.

(** [Set.update(other)]: [for item in other: self.add(item)]. *)
Definition update (l other : list T) : list T := fold_left add_item other l.

(** [Set.__init__(items)]: an empty dict, then [self.add(item)] for every
    item when [items] is not [None]. *)
Definition set_new (its : option (list T)) : list T :=
  match its with None => [] | Some l => update [] l end.

(** The exceptions the single-set methods raise. *)
Inductive set_exn := ValueError | KeyError | StopIteration.

(** [Set.remove]: [del self.items[item]], a [KeyError] turned into
    [ValueError]. *)
Definition remove (l : list T) (x : T) : set_exn + list T :=
  if decide (x ∈ l) then inr (discard_item l x) else inl ValueError.

(** [Set.discard]: [self.items.pop(item, None)]. *)
Definition discard (l : list T) (x : T) : list T := discard_item l x.

(** [Set.pop]: [dict.popitem()] removes and returns the last inserted key;
    [KeyError] on an empty dict. *)
Definition pop (l : list T) : set_exn + (T * list T) :=
  match last l with Some x => inr (x, removelast l) | None => inl KeyError end.




(** The argument of a comparison method: a [Set] (by its items) or any
    other object. *)
Inductive arg := ASet (l : list T) | ANotSet.

(** [Set.issubset]: the first item of [self] missing from [other] stops
    the loop with [False]. *)
Definition issubset (l : list T) (o : arg) : set_exn + bool :=
  match o with
  | ANotSet => inl ValueError
  | ASet m => inr (forallb (fun x => bool_decide (x ∈ m)) l)
  end.

(** [Set.issuperset] *)
Definition issuperset (l : list T) (o : arg) : set_exn + bool :=
  match o with
  | ANotSet => inl ValueError
  | ASet m => inr (forallb (fun x => bool_decide (x ∈ l)) m)
  end.

(** [Set.isdisjoint] *)
Definition isdisjoint (l : list T) (o : arg) : set_exn + bool :=
  match o with
  | ANotSet => inl ValueError
  | ASet m => inr (forallb (fun x => negb (bool_decide (x ∈ l))) m)
  end.

(** [Set.__eq__]: [False] for a non-[Set]; otherwise dict equality of the
    two [items] dicts, whose values are all [None]. *)
Definition set_eq_arg (l : list T) (o : arg) : bool :=
  match o with
  | ANotSet => false
  | ASet m => bool_decide (l ⊆ m /\ m ⊆ l)
  end.

(** [Set.__ne__]: [not self.__eq__(other)]. *)
Definition set_ne_arg (l : list T) (o : arg) : bool := negb (set_eq_arg l o).

Variable clone_class : nat -> option nat.

(** The in-place operators [__ior__], [__iand__], [__iadd__], [__isub__],
    [__ixor__]: run the update method and return [self]. *)
Definition inplace (op : binop) (h : @Heap T) (a b : nat) : option (@Heap T * nat) :=
  h' ← run_update clone_class (binop_update op) h a b; Some (h', a).

(** Every [items] dict of the heap has distinct keys. *)
Definition heap_nodup (h : @Heap T) : Prop :=
  forall i o, objs h !! i = Some o -> NoDup (items o).

End PySetMore.

End PySetMore.

Module ImmutableDict.

Section Dict.
Context {K V : Type} `{EqDecision K}.

(** An [immutable.Dict]: its [_odict] by its items in insertion order and
    its cached [_hash] ([None] until [__hash__] has run). *)
Record Dict := mkDict { odict : list (K * V); _hash : option Z }.

(** [d[k] = v] on a [dict]: an existing key keeps its position and takes
    the new value, a new key goes last. *)
Fixpoint dict_setitem (d : list (K * V)) (k : K) (v : V) : list (K * V) :=
  match d with
  | [] => [(k, v)]
  | (k', v') :: d' => if decide (k = k') then (k', v) :: d' else (k', v') :: dict_setitem d' k v
  end.

(** [MutableMapping.update] with an iterable of key/value pairs. *)
Definition dict_update (d : list (K * V)) (pairs : list (K * V)) : list (K * V) :=
  fold_left (fun acc kv => dict_setitem acc kv.1 kv.2) pairs d.

(** [Dict.__init__(dictionary, no_copy)] with the default [map_factory]
    ([dict]): a mapping passed with [no_copy] is wrapped, anything else is
    copied into a fresh dict. *)
Definition Dict_new (dictionary : list (K * V)) (no_copy is_mapping : bool) : Dict :=
  if no_copy && is_mapping then mkDict dictionary None
  else mkDict (dict_update [] dictionary) None.

(** [Dict.__getitem__]: [None] is the [KeyError]. *)
Fixpoint dict_lookup (d : list (K * V)) (k : K) : option V :=
  match d with
  | [] => None
  | (k', v') :: d' => if decide (k = k') then Some v' else dict_lookup d' k
  end.

(** [Dict.__len__] *)
Definition dict_len (d : Dict) : nat := length (odict d).

(** [hash(key)] and the order [sorted] uses on keys. *)
Variable hash_key : K -> Z.
Variable key_lt : relation K.
Context `{RelDecision K K key_lt}.


End Dict.

(** The Python values [constify] distinguishes. *)
#[warnings="-register-all"] Inductive pyval :=
  | PInt (z : Z)
  | PStr (s : string)
  | PBytes (b : list Z)
  | PBytearray (b : list Z)
  | PTuple (elts : list pyval)
  | PList (elts : list pyval)
  | PDict (kvs : list (pyval * pyval))
  | PFrozenDict (kvs : list (pyval * pyval))
  | PObject (oid : nat) (hashable : bool).

(** Does [hash(v)] succeed?  A tuple hashes its elements, an immutable
    [Dict] its keys; lists, dicts and bytearrays are unhashable. *)
Fixpoint py_hashable (v : pyval) : bool :=
  match v with
  | PBytearray _ | PList _ | PDict _ => false
  | PTuple l => forallb py_hashable l
  | PFrozenDict kvs => forallb (fun kv => py_hashable kv.1) kvs
  | PObject _ h => h
  | PInt _ | PStr _ | PBytes _ => true
  end.

(** [immutable.constify] *)
Fixpoint constify (v : pyval) : pyval :=
  match v with
  | PBytearray b => PBytes b
  | PTuple l => if py_hashable (PTuple l) then PTuple l else PTuple (map constify l)
  | PList l => PTuple (map constify l)
  | PDict kvs => PFrozenDict (map (fun kv => (kv.1, constify kv.2)) kvs)
  | _ => v
  end.

End ImmutableDict.

Module RendererMore.
Import Renderer.

Definition set_limits (r : Renderer) (ms res : Z) : Renderer :=
  mkRenderer (id r) (flags r) ms (origin r) (compress r) (section_ r)
             (counts r) (output r) res (was_padded r).

(** [Renderer.reserve(size)]: [None] is the [ValueError]. *)
Definition reserve (size : Z) (r : Renderer) : option Renderer :=
  if size <? 0 then None
  else if size >? max_size r then None
  else Some (set_limits r (max_size r - size) (reserved r + size)).

(** [Renderer.release_reserved] *)
Definition release_reserved (r : Renderer) : Renderer :=
  set_limits r (max_size r + reserved r) 0.

(** [Renderer.add_edns(edns, ednsflags, payload, options)]: [None] options
    are the empty list. *)
Definition add_edns (cd : codec) (edns ednsflags payload : Z) (options : list edns_option)
    : M unit :=
  let ednsflags := Z.land ednsflags 4278255615 in
  let ednsflags := Z.lor ednsflags (Z.shiftl edns 16) in
  add_opt cd (_make_opt ednsflags payload options) 0 0 0.

(** [v.to_bytes(n, "big")] for [0 <= v < 256 ^ n]. *)
Fixpoint to_bytes_big (v : Z) (n : nat) : list Z :=
  match n with
  | O => []
  | S n' => to_bytes_big (v / 256) n' ++ [v mod 256]
  end.

(** [prefixed_length(self.output, length_length)] around a [with] body:
    [length_length] zero bytes, the body, then (when the body wrote
    something) the length written big-endian over the zeros, an
    [OverflowError] becoming [FormError]; the position goes back to the end
    of the body in a [finally] clause.  An exception of the body propagates
    as is. *)
Definition prefixed_length {A} (length_length : nat) (body : M A) : M A :=
  _ ← write (replicate length_length 0);
  start ← gets (fun r => pos (output r));
  body ≫= fun x : A =>
  end_ ← gets (fun r => pos (output r));
  let length := Z.of_nat end_ - Z.of_nat start in
  if length >? 0 then
    (fun r : Renderer =>
      let r1 := set_output r (bio_seek (output r) (start - length_length)) in
      let '(res, r2) :=
        (if length <? 256 ^ Z.of_nat length_length
         then write (to_bytes_big length length_length)
         else raise FormError) r1 in
      ((match res with inl e => inl e | inr _ => inr x end : exn + A),
       set_output r2 (bio_seek (output r2) end_)))
  else mret x.

(** [struct.pack("!I", v)]: [struct.error] out of range. *)
Definition pack_I (v : Z) : M (list Z) :=
  if (0 <=? v) && (v <? 2 ^ 32)
  then mret [v / 2 ^ 24; v / 2 ^ 16 mod 256; v / 256 mod 256; v mod 256]
  else raise StructError.

(** A [dns.rdtypes.ANY.TSIG.TSIG] rdata, by its fields; [error] is the
    rcode's value. *)
Record tsig := mkTSIG {
  algorithm : name; time_signed : Z; fudge : Z; mac : list Z;
  original_id : Z; error : Z; other : list Z }.

(** [dns.rdatatype.TSIG] and [dns.rdataclass.ANY] *)
Definition TSIG_TYPE : Z := 250.
Definition ANY_CLASS : Z := 255.

Section Tsig.
Context (cd : codec).

(** [name.to_wire(file, None, origin)]: a name written without compression;
    its code ([dns.name.Name.to_wire]) is not part of the renderer. *)
Variable plain_name_to_wire : name -> option name -> list Z.

(** [TSIG.to_wire(self.output)], i.e. [TSIG._to_wire(file, None, None)]:
    each [struct.pack] checks all its values before anything is written. *)
Definition tsig_to_wire (t : tsig) : M unit :=
  _ ← write (plain_name_to_wire (algorithm t) None);
  b1 ← pack_H (Z.land (Z.shiftr (time_signed t) 32) 65535);
  b2 ← pack_I (Z.land (time_signed t) 4294967295);
  b3 ← pack_Hs [fudge t; Z.of_nat (length (mac t))];
  _ ← write (b1 ++ b2 ++ b3);
  _ ← write (mac t);
  b4 ← pack_Hs [original_id t; error t; Z.of_nat (length (other t))];
  _ ← write b4;
  write (other t).

(** [Renderer._write_tsig(tsig, keyname)] *)
Definition _write_tsig (t : tsig) (keyname : name) : M unit :=
  gets was_padded ≫= fun padded : bool =>
  _ ← _set_section ADDITIONAL;
  _ ← _track_size (A := unit)
        (_ ← (if padded
              then o ← gets origin; write (plain_name_to_wire keyname o)
              else write_name cd keyname : M unit);
         b1 ← pack_Hs [TSIG_TYPE; ANY_CLASS];
         b2 ← pack_I 0;
         _ ← write (b1 ++ b2);
         prefixed_length 2 (tsig_to_wire t));
  _ ← add_count ADDITIONAL 1;
  _temporarily_seek_to 10
    (c ← gets (fun r => counts r !!! section_index ADDITIONAL);
     bs ← pack_H c; write bs).

End Tsig.

End RendererMore.

(* ===================================================================== *)
(** ** Properties of the serial numbers *)
(* ===================================================================== *)

Section SerialClaims.
Import Serial.

(** C5: for two same-width serials, [a == b] is numeric equality of the
    values, and [a < b] holds exactly when [(b.value - a.value) mod 2^bits]
    lies strictly between [0] and [2^(bits-1)]; at the antipodal distance
    neither [a < b] nor [b < a] holds, and for widths of at least two bits
    the relation is not transitive. *)
Theorem serial_compare_law (a b : obj) :
  valid a.(oval) -> valid b.(oval) -> a.(oval).(bits) = b.(oval).(bits) ->
  let w := a.(oval).(bits) in
  let d := (b.(oval).(value) - a.(oval).(value)) mod 2 ^ Z.of_N w in
  py_eq a b = PyBool (a.(oval).(value) =? b.(oval).(value)) /\
  py_lt a b = PyBool ((0 <? d) && (d <? half w)) /\
  (d = half w -> py_lt a b = PyBool false /\ py_lt b a = PyBool false) /\
  ((2 <= w)%N ->
   exists x y z : obj,
     x.(oval).(bits) = w /\ y.(oval).(bits) = w /\ z.(oval).(bits) = w /\
     valid x.(oval) /\ valid y.(oval) /\ valid z.(oval) /\
     py_lt x y = PyBool true /\ py_lt y z = PyBool true /\ py_lt x z = PyBool false).
Proof.
  destruct a as [ia [va wa]], b as [ib [vb wb]]. unfold valid; simpl.
  intros Ha Hb <-. cbv zeta.
  unfold py_eq, py_lt, serial_eq, serial_lt; simpl. rewrite N.eqb_refl. simpl.
  split; [reflexivity|]. split.
  { rewrite lt_values_formula by lia. reflexivity. }
  split.
  - intros Hd. rewrite !lt_values_formula by lia. rewrite Hd.
    split; [rewrite Z.ltb_irrefl, andb_false_r; reflexivity|].
    destruct (N.eq_dec wa 0%N) as [->|Hw].
    + rewrite half_zero. zcmp.
    + pose proof (pow_half wa ltac:(lia)) as HM. pose proof (half_pos wa ltac:(lia)).
      assert (Hd' : (va - vb) mod 2 ^ Z.of_N wa = half wa).
      { replace (va - vb) with (- (vb - va)) by lia.
        rewrite Z.mod_opp_l_nz by lia. lia. }
      rewrite Hd', Z.ltb_irrefl, andb_false_r. reflexivity.
  - intros Hw.
    pose proof (pow_half wa ltac:(lia)) as HM.
    assert (H2 : 2 <= half wa).
    { unfold half. replace 2 with (2 ^ 1) at 1 by reflexivity.
      apply Z.pow_le_mono_r; lia. }
    exists (mkObj 0 (mkSerial 0 wa)), (mkObj 1 (mkSerial 1 wa)),
           (mkObj 2 (mkSerial (half wa) wa)).
    unfold valid; simpl. rewrite N.eqb_refl. simpl.
    rewrite !lt_values_formula by (simpl; lia).
    rewrite !Z.mod_small by lia.
    repeat split; try lia; zcmp.
Qed.

(** C5, at the 32-bit boundary distances [2^31 - 1], [2^31], [2^31 + 1]. *)
Lemma serial_compare_law_witness :
  valid (mkSerial 0 32) /\ valid (mkSerial (2 ^ 31) 32) /\
  py_lt (mkObj 0 (mkSerial 0 32)) (mkObj 1 (mkSerial (2 ^ 31 - 1) 32)) = PyBool true /\
  py_lt (mkObj 0 (mkSerial 0 32)) (mkObj 1 (mkSerial (2 ^ 31) 32)) = PyBool false /\
  py_lt (mkObj 1 (mkSerial (2 ^ 31) 32)) (mkObj 0 (mkSerial 0 32)) = PyBool false /\
  py_lt (mkObj 0 (mkSerial 0 32)) (mkObj 1 (mkSerial (2 ^ 31 + 1) 32)) = PyBool false /\
  py_lt (mkObj 1 (mkSerial (2 ^ 31 + 1) 32)) (mkObj 0 (mkSerial 0 32)) = PyBool true /\
  py_lt (mkObj 0 (mkSerial 10 32)) (mkObj 1 (mkSerial 20 32)) = PyBool
    (let d := (20 - 10) mod 2 ^ 32 in (0 <? d) && (d <? half 32)).
Proof.
  split; [unfold valid; simpl; lia|]. split; [unfold valid; simpl; lia|].
  do 5 (split; [reflexivity|]).
  refine (proj1 (proj2 (serial_compare_law (mkObj 0 (mkSerial 10 32))
                          (mkObj 1 (mkSerial 20 32)) _ _ eq_refl)));
    unfold valid; simpl; lia.
Defined.

(** C6 (as amended): between serials of differing widths every ordering
    operator ([<], [>], [<=], [>=]) raises [TypeError], since each method and
    its reflection return [NotImplemented]; equality and inequality do not
    raise: Python falls back to identity, so [a == b] is [a is b] and
    [a != b] is [a is not b]. *)
Theorem serial_width_mismatch (a b : obj) :
  a.(oval).(bits) <> b.(oval).(bits) ->
  py_lt a b = PyTypeError /\ py_gt a b = PyTypeError /\
  py_le a b = (if Nat.eqb a.(oid) b.(oid) then PyBool true else PyTypeError) /\
  py_ge a b = (if Nat.eqb a.(oid) b.(oid) then PyBool true else PyTypeError) /\
  py_eq a b = PyBool (Nat.eqb a.(oid) b.(oid)) /\
  py_ne a b = PyBool (negb (Nat.eqb a.(oid) b.(oid))).
Proof.
  destruct a as [ia [va wa]], b as [ib [vb wb]]; simpl. intros Hne.
  assert (E1 : N.eqb wa wb = false) by (apply N.eqb_neq; exact Hne).
  assert (E2 : N.eqb wb wa = false) by (apply N.eqb_neq; congruence).
  unfold py_le, py_ge, py_lt, py_gt, py_eq, py_ne, serial_lt, serial_gt,
    serial_eq, serial_ne; simpl. rewrite E1, E2. simpl.
  destruct (Nat.eqb ia ib); repeat split.
Qed.

(** C6: two distinct serial objects of widths 32 and 16. *)
Lemma serial_width_mismatch_witness :
  py_lt (mkObj 0 (mkSerial 1 32)) (mkObj 1 (mkSerial 1 16)) = PyTypeError /\
  py_eq (mkObj 0 (mkSerial 1 32)) (mkObj 1 (mkSerial 1 16)) = PyBool false.
Proof.
  pose proof (serial_width_mismatch (mkObj 0 (mkSerial 1 32)) (mkObj 1 (mkSerial 1 16))
                ltac:(simpl; discriminate)) as H.
  simpl in H. destruct H as (H1 & _ & _ & _ & H5 & _). split; assumption.
Defined.

(** C6 as stated fails: comparing [Serial(1, 32) == Serial(1, 16)] returns
    the default [False] instead of signalling "not comparable". *)
Lemma serial_width_mismatch_eq_returns_false :
  py_eq (mkObj 0 (mkSerial 1 32)) (mkObj 1 (mkSerial 1 16)) = PyBool false /\
  py_eq (mkObj 0 (mkSerial 1 32)) (mkObj 1 (mkSerial 1 16)) <> PyTypeError.
Proof. split; [reflexivity | discriminate]. Qed.

(** C10: the constructor is total and stores [v mod 2^bits]; every result of
    [__add__], [__iadd__], [__sub__] and [__isub__] that is not a
    [ValueError] satisfies [0 <= value < 2^bits] and keeps the width. *)
Theorem serial_value_in_range (v : Z) (w : N) :
  (Serial_new v w).(value) = v mod 2 ^ Z.of_N w /\ (Serial_new v w).(bits) = w /\
  valid (Serial_new v w) /\
  (forall (s : Serial) (o : operand),
     result_valid s.(bits) (serial_add s o) /\ result_valid s.(bits) (serial_iadd s o) /\
     result_valid s.(bits) (serial_sub s o) /\ result_valid s.(bits) (serial_isub s o)).
Proof.
  split; [reflexivity|]. split; [reflexivity|]. split; [apply Serial_new_valid|].
  intros s o.
  unfold serial_add, serial_iadd, serial_sub, serial_isub.
  destruct o as [o|z|]; simpl; try (repeat split; fail);
    repeat match goal with |- context [if ?c then _ else _] => destruct c end;
    simpl; repeat split; try exact I; apply Serial_new_valid.
Qed.

End SerialClaims.

(* ===================================================================== *)
(** ** Properties of the ordered set *)
(* ===================================================================== *)

Section SetClaims.
Import PySet.
Context {T : Type} `{EqDecision T}.

(** C7 (as amended): [union], [intersection], [difference] and
    [symmetric_difference] return a fresh object whose class is the
    receiver's [_clone_class] when it has one and the receiver's class
    otherwise; both operands are left as they were, and later mutating the
    result through an update method leaves both operands unchanged, while
    mutating either operand leaves the result unchanged. *)
Theorem set_binop_fresh_result (cc : nat -> option nat) (op : binop) (h : @Heap T)
    (a b : nat) (A B : SetObj) :
  heap_wf h -> objs h !! a = Some A -> objs h !! b = Some B ->
  exists h' r R,
    run_binop cc op h a b = Some (h', r) /\
    objs h !! r = None /\ objs h' !! r = Some R /\
    cls R = match cc (cls A) with Some c => c | None => cls A end /\
    objs h' !! a = Some A /\ objs h' !! b = Some B /\
    (forall (u : updop) (o : nat) (h'' : Heap), run_update cc u h' r o = Some h'' ->
       objs h'' !! a = Some A /\ objs h'' !! b = Some B) /\
    (forall (u : updop) (s o : nat) (h'' : Heap), s = a \/ s = b ->
       run_update cc u h' s o = Some h'' -> objs h'' !! r = Some R).
Proof.
  intros Hwf Ea Eb. pose proof (Hwf _ _ Ea) as Ha. pose proof (Hwf _ _ Eb) as Hb.
  rewrite run_binop_clone, (clone_spec cc _ _ _ Ea). cbn [mbind option_bind].
  set (h1 := mkHeap _ _).
  assert (Hc : clone cc h a = Some (h1, next_id h)) by (apply clone_spec, Ea).
  destruct (wf_clone cc _ _ _ _ Hwf Hc) as (Hwf1 & _ & Hn1 & Hold1).
  destruct (update_total cc (binop_update op) h1 (next_id h) b
              (mkSetObj (match cc (cls A) with Some c => c | None => cls A end) (items A)) B)
    as (h2 & R & Hu & ER & HcR); [done| apply lookup_insert_eq | by rewrite Hold1|].
  destruct (update_frame cc _ _ _ _ _ Hwf1 Hu) as (Hwf2 & Hn2 & Hfr2).
  rewrite Hu. cbn [mbind option_bind].
  exists h2, (next_id h), R.
  assert (Ea2 : objs h2 !! a = Some A) by (rewrite Hfr2, Hold1 by lia; done).
  assert (Eb2 : objs h2 !! b = Some B) by (rewrite Hfr2, Hold1 by lia; done).
  split; [done|]. split.
  { destruct (objs h !! next_id h) eqn:E; [|done]. specialize (Hwf _ _ E). lia. }
  split; [done|]. split; [done|]. split; [done|]. split; [done|]. split.
  - intros u o h'' Hu'. destruct (update_frame cc _ _ _ _ _ Hwf2 Hu') as (_ & _ & Hfr).
    rewrite !Hfr by lia. done.
  - intros u s o h'' Hs Hu'. destruct (update_frame cc _ _ _ _ _ Hwf2 Hu') as (_ & _ & Hfr).
    rewrite Hfr; [done|lia|]. specialize (Hwf2 _ _ ER). lia.
Qed.

(** C8: [a.union(b).union(c) == a.union(b.union(c))] evaluates to [True];
    [a.difference(a)] and [a.symmetric_difference(a)] are empty; and the
    destructive self-operations are guarded: [a.union_update(a)] and
    [a.intersection_update(a)] change nothing, [a.difference_update(a)] and
    [a.symmetric_difference_update(a)] clear [a]. *)
Theorem set_algebra_laws (cc : nat -> option nat) (h : @Heap T) (a b c : nat)
    (A B C : SetObj) :
  heap_wf h -> objs h !! a = Some A -> objs h !! b = Some B -> objs h !! c = Some C ->
  union_assoc_expr cc h a b c = Some true /\
  (exists h' r R, difference cc h a a = Some (h', r) /\ objs h' !! r = Some R /\ items R = []) /\
  (exists h' r R, symmetric_difference cc h a a = Some (h', r) /\ objs h' !! r = Some R /\
                  items R = []) /\
  union_update h a a = Some h /\ intersection_update h a a = Some h /\
  difference_update h a a = Some (set_items h a []) /\
  symmetric_difference_update cc h a a = Some (set_items h a []).
Proof.
  intros Hwf Ea Eb Ec.
  pose proof (Hwf _ _ Ea). pose proof (Hwf _ _ Eb). pose proof (Hwf _ _ Ec).
  split; [|split; [|split]].
  - unfold union_assoc_expr.
    destruct (union_spec cc h a b A B Hwf Ea Eb) as (h1 & R1 & U1 & E1 & I1 & W1 & N1 & O1).
    rewrite U1. cbn [mbind option_bind].
    destruct (union_spec cc h1 (next_id h) c R1 C W1 E1 ltac:(rewrite O1; done))
      as (h2 & R2 & U2 & E2 & I2 & W2 & N2 & O2).
    rewrite U2. cbn [mbind option_bind].
    destruct (union_spec cc h2 b c B C W2 ltac:(rewrite O2, O1; [done|lia|lia])
                ltac:(rewrite O2, O1; [done|lia|lia]))
      as (h3 & R3 & U3 & E3 & I3 & W3 & N3 & O3).
    rewrite U3. cbn [mbind option_bind].
    destruct (union_spec cc h3 a (next_id h2) A R3 W3
                ltac:(rewrite O3, O2, O1; [done|lia|lia|lia]) E3)
      as (h4 & R4 & U4 & E4 & I4 & W4 & N4 & O4).
    rewrite U4. cbn [mbind option_bind].
    unfold set_eq. rewrite (O4 (next_id h1)), (O3 (next_id h1)) by lia. rewrite E2, E4.
    cbn [mbind option_bind]. f_equal. apply bool_decide_eq_true_2.
    rewrite I2, I4, I3, I1. split; intros x; rewrite !elem_fold_add; tauto.
  - destruct (difference_self_spec cc h a A Hwf Ea) as (h' & R & Hd1 & Hd2 & Hd3).
    exists h', (next_id h), R. auto.
  - destruct (symmetric_difference_self_spec cc h a A Hwf Ea) as (h' & R & Hd1 & Hd2 & Hd3).
    exists h', (next_id h), R. auto.
  - unfold union_update, intersection_update, difference_update,
      symmetric_difference_update.
    rewrite Ea. rewrite !decide_True by reflexivity. repeat split.
Qed.

End SetClaims.

(** C8 on three concrete sets of numbers. *)
Lemma set_algebra_laws_witness :
  let h := PySet.mkHeap (<[0%nat := PySet.mkSetObj 0 [1; 2]%nat]>
             (<[1%nat := PySet.mkSetObj 0 [2; 3]%nat]>
             (<[2%nat := PySet.mkSetObj 0 [3; 4; 1]%nat]> ∅))) 3 in
  PySet.heap_wf h /\ PySet.union_assoc_expr (fun _ => None) h 0 1 2 = Some true.
Proof.
  intros h. assert (Hwf : PySet.heap_wf h).
  { intros i o E. unfold h in E. cbn [PySet.objs PySet.next_id] in *.
    rewrite !lookup_insert_Some, lookup_empty in E. cbn. destruct E as [[<- _]|[_ [[<- _]|[_ [[<- _]|[_ E]]]]]]; [lia|lia|lia|done]. }
  split; [exact Hwf|].
  apply (set_algebra_laws (T := nat) (fun _ => None) h 0 1 2 (PySet.mkSetObj 0 [1; 2]%nat)
           (PySet.mkSetObj 0 [2; 3]%nat) (PySet.mkSetObj 0 [3; 4; 1]%nat) Hwf);
    reflexivity.
Defined.


(** C7 as stated fails: a class whose [_clone_class] is another class (class
    [1] cloning to class [0]) gets a union result of the other class. *)
Lemma set_union_changes_class :
  let cc := fun c : nat => if Nat.eqb c 1 then Some 0%nat else None in
  let h := @PySet.mkHeap nat (<[0%nat := PySet.mkSetObj 1 [1; 2]%nat]> ∅) 1 in
  option_map PySet.cls (PySet.objs h !! 0%nat) = Some 1%nat /\
  match PySet.union cc h 0 0 with
  | Some (h', r) => option_map PySet.cls (PySet.objs h' !! r)
  | None => None
  end = Some 0%nat.
Proof. split; reflexivity. Qed.

(** C7 on two concrete sets of numbers, for each of the four operations. *)
Lemma set_binop_fresh_result_witness :
  let h := PySet.mkHeap (<[0%nat := PySet.mkSetObj 0 [1; 2]%nat]>
             (<[1%nat := PySet.mkSetObj 0 [2; 3]%nat]> ∅)) 2 in
  PySet.heap_wf h /\
  exists h' r R, PySet.run_binop (fun _ => None) PySet.OpSymDiff h 0 1 = Some (h', r) /\
    PySet.objs h' !! r = Some R /\ PySet.items R = [1; 3]%nat /\
    PySet.objs h' !! 0%nat = Some (PySet.mkSetObj 0 [1; 2]%nat).
Proof.
  intros h. assert (Hwf : PySet.heap_wf h).
  { intros i o E. unfold h in E. cbn [PySet.objs PySet.next_id] in *.
    rewrite !lookup_insert_Some, lookup_empty in E. cbn.
    destruct E as [[<- _]|[_ [[<- _]|[_ E]]]]; [lia|lia|done]. }
  split; [exact Hwf|].
  destruct (set_binop_fresh_result (T := nat) (fun _ => None) PySet.OpSymDiff h 0 1
              (PySet.mkSetObj 0 [1; 2]%nat) (PySet.mkSetObj 0 [2; 3]%nat) Hwf
              eq_refl eq_refl)
    as (h' & r & R & Hop & _ & HR & _ & Ha & _).
  exists h', r, R. split; [exact Hop|]. split; [exact HR|]. split; [|exact Ha].
  vm_compute in Hop. injection Hop as <- <-.
  vm_compute in HR. injection HR as <-. reflexivity.
Defined.

(* ===================================================================== *)
(** ** Properties of the immutable construction discipline *)
(* ===================================================================== *)

Section ImmutableClaims.
Import Immutable.
Context {V : Type}.

(** C9 (as amended): assigning or deleting an attribute of [o] succeeds only
    while a wrapped initialiser or restore call on [o] is the innermost one
    running (the context variable holds [o]); otherwise it raises
    [TypeError] and changes nothing.  Wrapped calls restore the context
    variable when they return or raise, so once [o]'s construction has
    returned at top level, any later code that does not call a wrapped
    initialiser or restore method on [o] again leaves every slot of [o]
    unchanged. *)
Theorem immutable_construction :
  (forall (st : @State V) o n v, fst (exec (SetAttr o n v) st) = Ok <-> in_init st = Some o) /\
  (forall (st : @State V) o n v, in_init st <> Some o ->
     exec (SetAttr o n v) st = (Exc TypeError, st)) /\
  (forall (st : @State V) o n, fst (exec (DelAttr o n) st) = Ok -> in_init st = Some o) /\
  (forall (st : @State V) o n, in_init st <> Some o ->
     exec (DelAttr o n) st = (Exc TypeError, st)) /\
  (forall (p : @prog V) st, in_init (snd (exec_prog p st)) = in_init st) /\
  (forall (o : nat) (p : @prog V) st, in_init st <> Some o -> inits_prog o p = false ->
     heap (snd (exec_prog p st)) !! o = heap st !! o) /\
  (forall (o : nat) (body rest : @prog V) st, in_init st = None -> inits_prog o rest = false ->
     let st1 := snd (exec (Init o body) st) in
     in_init st1 = None /\ heap (snd (exec_prog rest st1)) !! o = heap st1 !! o).
Proof.
  assert (Hself : forall ctx o, is_self ctx o = true <-> ctx = Some o).
  { intros [c|] o; simpl; [rewrite Nat.eqb_eq; split; congruence | split; congruence]. }
  assert (Hnself : forall ctx o, ctx <> Some o -> is_self ctx o = false).
  { intros ctx o Hne. destruct (is_self ctx o) eqn:E; [|done]. apply Hself in E. done. }
  split; [|split; [|split; [|split; [|split; [|split]]]]].
  - intros st o n v. simpl. rewrite <- Hself. destruct (is_self _ _); simpl; split; congruence.
  - intros st o n v Hne. simpl. rewrite Hnself by done. done.
  - intros st o n. simpl. destruct (is_self _ _) eqn:E.
    + intros _. apply Hself, E.
    + simpl. discriminate.
  - intros st o n Hne. simpl. rewrite Hnself by done. done.
  - apply exec_in_init.
  - intros o p st Hne Hi. apply (proj2 (exec_frozen o)); [apply Hnself|]; done.
  - intros o body rest st Hnone Hi st1.
    assert (H1 : in_init st1 = None).
    { unfold st1. rewrite (proj1 exec_in_init). done. }
    split; [done|]. apply (proj2 (exec_frozen o)); [rewrite H1; done|done].
Qed.

End ImmutableClaims.

(** C9: an object initialised at top level, followed by code that assigns
    one of its slots from outside its initialiser. *)
Lemma immutable_construction_witness :
  let st1 := snd (Immutable.exec (Immutable.Init 0 (Immutable.PCons
                   (Immutable.SetAttr 0 "cpu" 1%Z) Immutable.PNil))
                   (Immutable.mkState None ∅)) in
  let rest := Immutable.PCons (Immutable.SetAttr 0 "cpu" 7%Z) Immutable.PNil in
  Immutable.in_init st1 = None /\
  Immutable.heap (snd (Immutable.exec_prog rest st1)) !! 0%nat = Immutable.heap st1 !! 0%nat.
Proof.
  intros st1 rest.
  exact (proj2 (proj2 (proj2 (proj2 (proj2 (proj2 (immutable_construction (V := Z)))))))
           0%nat _ rest (Immutable.mkState None ∅) eq_refl eq_refl).
Defined.

(** C9 as stated fails: after construction has returned, calling the
    wrapped [__init__] again on the same instance re-opens the window and
    changes a field ([cpu] goes from [1] to [2]). *)
Lemma immutable_reinit_changes_field :
  let st1 := snd (Immutable.exec (Immutable.Init 0 (Immutable.PCons
                   (Immutable.SetAttr 0 "cpu" 1%Z) Immutable.PNil))
                   (Immutable.mkState None ∅)) in
  let r := Immutable.exec (Immutable.Init 0 (Immutable.PCons
                   (Immutable.SetAttr 0 "cpu" 2%Z) Immutable.PNil)) st1 in
  Immutable.in_init st1 = None /\
  (Immutable.heap st1 !! 0%nat) ≫= (fun m => m !! "cpu"%string) = Some 1%Z /\
  fst r = Immutable.Ok /\
  (Immutable.heap (snd r) !! 0%nat) ≫= (fun m => m !! "cpu"%string) = Some 2%Z.
Proof. vm_compute. repeat split. Qed.

(* ===================================================================== *)
(** ** Properties of the renderer *)
(* ===================================================================== *)

Section RendererClaims.
Import Renderer.

(** A renderer state as its methods keep it: the position is at the end
    of the buffer and every compression offset points before it. *)
Definition wf (r : Renderer) : Prop :=
  pos (output r) = length (buf (output r)) /\
  map_Forall (fun _ v => (v < pos (output r))%nat) (compress r).

(** The compression-table part of the codec contract: a serializer keeps
    the entries it was given and records new names only at offsets from
    the position it started writing at. *)
Definition table_grows (c c' : gmap name nat) (p : nat) : Prop :=
  c ⊆ c' /\ map_Forall (fun k v => c !! k = None -> (p <= v)%nat) c'.

Lemma bio_write_end (b : BytesIO) (bs : list Z) :
  pos b = length (buf b) -> bio_write b bs = mkBytesIO (buf b ++ bs) (pos b + length bs).
Proof.
  intros H. destruct b as [bf p]; simpl in *. unfold bio_write; simpl. subst p.
  rewrite Nat.sub_diag. simpl. rewrite app_nil_r, take_ge by lia.
  rewrite drop_ge by lia. rewrite app_nil_r. done.
Qed.

Lemma rollback_table (c c' : gmap name nat) (p : nat) :
  table_grows c c' p -> map_Forall (fun _ v => (v < p)%nat) c ->
  filter (fun kv : name * nat => (kv.2 < p)%nat) c' = c.
Proof.
  intros [Hsub Hnew] Hold. apply map_eq. intros k.
  rewrite map_lookup_filter.
  destruct (c !! k) as [v|] eqn:E.
  - rewrite (lookup_weaken c c' k v E Hsub). simpl.
    pose proof (Hold k v E) as Hv. simpl in Hv.
    rewrite option_guard_True by (simpl; lia). done.
  - destruct (c' !! k) as [v|] eqn:E'; simpl; [|done].
    pose proof (Hnew k v E' E) as Hv.
    rewrite option_guard_False by (simpl; lia). done.
Qed.

Lemma set_section_forward (s : section) (r : Renderer) :
  (section_index (section_ r) <= section_index s)%nat ->
  _set_section s r = (inr tt, set_section_field r s).
Proof.
  intros H. unfold _set_section.
  destruct (decide (section_ r <> s)) as [Hne|Heq].
  - rewrite decide_False by lia. done.
  - apply dec_stable in Heq. subst s. destruct r. done.
Qed.

Lemma bind_inl {A B} (m : M A) (f : A -> M B) (r r1 : Renderer) (e : exn) :
  m r = (inl e, r1) -> (m ≫= f) r = (inl e, r1).
Proof. intros H. unfold mbind, M_bind. rewrite H. done. Qed.

Lemma bind_inr {A B} (m : M A) (f : A -> M B) (r r1 : Renderer) (x : A) :
  m r = (inr x, r1) -> (m ≫= f) r = f x r1.
Proof. intros H. unfold mbind, M_bind. rewrite H. done. Qed.

Lemma track_size_over {A} (body : M A) (r r1 : Renderer) (x : A) :
  body r = (inr x, r1) -> max_size r1 < Z.of_nat (pos (output r1)) ->
  _track_size body r =
    (inl TooBig,
     set_compress (set_output r1 (bio_truncate (bio_seek (output r1) (pos (output r)))))
                  (filter (fun kv : name * nat => (kv.2 < pos (output r))%nat) (compress r1))).
Proof.
  intros Hb Hm. unfold _track_size, mbind, M_bind, gets, raise, _rollback, modify; simpl.
  rewrite Hb. rewrite (proj2 (Z.gtb_lt _ _) Hm). done.
Qed.

Lemma track_size_within {A} (body : M A) (r r1 : Renderer) (x : A) :
  body r = (inr x, r1) -> Z.of_nat (pos (output r1)) <= max_size r1 ->
  _track_size body r = (inr x, r1).
Proof.
  intros Hb Hm. unfold _track_size, mbind, M_bind, gets, raise, _rollback, modify; simpl.
  rewrite Hb. destruct (Z.of_nat (pos (output r1)) >? max_size r1) eqn:E; [|done].
  apply Z.gtb_lt in E. lia.
Qed.

Lemma pack_H_ok (v : Z) :
  0 <= v < 65536 -> pack_H v = mret [v / 256; v mod 256].
Proof.
  intros Hv. unfold pack_H.
  replace ((0 <=? v) && (v <? 65536)) with true; [done|].
  symmetry. apply andb_true_intro. split; [apply Z.leb_le | apply Z.ltb_lt]; lia.
Qed.

(** The renderer after the rollback of a write of [ws] that left the table
    [c1]. *)
Lemma rolled_back (r : Renderer) (s : section) (ws : list Z) (c1 : gmap name nat) :
  wf r -> table_grows (compress r) c1 (pos (output r)) ->
  let r1 := set_compress (set_output (set_section_field r s)
              (mkBytesIO (buf (output r) ++ ws) (pos (output r) + length ws))) c1 in
  set_compress (set_output r1 (bio_truncate (bio_seek (output r1) (pos (output r)))))
    (filter (fun kv : name * nat => (kv.2 < pos (output r))%nat) (compress r1))
  = set_section_field r s.
Proof.
  intros [Hpos Hold] Htab r1. subst r1.
  assert (Hf := rollback_table _ _ _ Htab Hold).
  destruct r as [i f m o c sec cnt [bf p] rs wp]; simpl in *.
  unfold set_compress, set_output, set_section_field, bio_truncate, bio_seek; simpl.
  rewrite Hf. subst p. rewrite take_app_length. done.
Qed.

(** Section bookkeeping: which steps leave the current section alone. *)
Definition keeps_section {A} (m : M A) : Prop :=
  forall r, section_ (snd (m r)) = section_ r.

Definition raises_section {A} (m : M A) : Prop :=
  forall r, (section_index (section_ r) <= section_index (section_ (snd (m r))))%nat.

Create HintDb keeps.

Lemma keeps_bind {A B} (m : M A) (f : A -> M B) :
  keeps_section m -> (forall x, keeps_section (f x)) -> keeps_section (m ≫= f).
Proof.
  intros Hm Hf r. unfold mbind, M_bind.
  specialize (Hm r). destruct (m r) as [[e|x] r1]; simpl in *; [done|].
  rewrite Hf. done.
Qed.

Lemma keeps_ret {A} (x : A) : keeps_section (mret x).
Proof. intros r. done. Qed.

Lemma keeps_raise {A} (e : exn) : keeps_section (raise (A := A) e).
Proof. intros r. done. Qed.

Lemma keeps_gets {A} (f : Renderer -> A) : keeps_section (gets f).
Proof. intros r. done. Qed.

Lemma keeps_write (bs : list Z) : keeps_section (write bs).
Proof. intros r. done. Qed.

Lemma keeps_pack_Hs (vs : list Z) : keeps_section (pack_Hs vs).
Proof.
  induction vs as [|v vs IH]; simpl; [apply keeps_ret|].
  apply keeps_bind; [|intros; apply keeps_bind; [done|intros; apply keeps_ret]].
  unfold pack_H. destruct (_ && _); [apply keeps_ret | apply keeps_raise].
Qed.

Lemma keeps_rollback (w : nat) : keeps_section (_rollback w).
Proof. intros r. done. Qed.

Lemma keeps_add_count (s : section) (n : Z) : keeps_section (add_count s n).
Proof. intros r. done. Qed.

Lemma keeps_write_name cd q : keeps_section (write_name cd q).
Proof.
  intros r. unfold write_name.
  destruct (name_to_wire cd q _ _ _). done.
Qed.

Lemma keeps_write_rrset cd rr : keeps_section (write_rrset cd rr).
Proof.
  intros r. unfold write_rrset.
  destruct (rrset_to_wire cd rr _ _ _) as [[? ?] ?]. done.
Qed.

Lemma keeps_write_rdataset cd nm rd : keeps_section (write_rdataset cd nm rd).
Proof.
  intros r. unfold write_rdataset.
  destruct (rdataset_to_wire cd nm rd _ _ _) as [[? ?] ?]. done.
Qed.

#[local] Hint Resolve keeps_ret keeps_raise keeps_gets keeps_write keeps_pack_Hs
  keeps_rollback keeps_add_count keeps_write_name keeps_write_rrset
  keeps_write_rdataset : keeps.
#[local] Hint Extern 1 (keeps_section (_ ≫= _)) => apply keeps_bind; intros : keeps.

Lemma keeps_track_size {A} (body : M A) :
  keeps_section body -> keeps_section (_track_size body).
Proof.
  intros Hb. unfold _track_size.
  apply keeps_bind; [auto with keeps|intros start].
  apply keeps_bind; [done|intros x].
  apply keeps_bind; [auto with keeps|intros size].
  apply keeps_bind; [auto with keeps|intros ms].
  destruct (_ >? _); auto with keeps.
Qed.

#[local] Hint Resolve keeps_track_size : keeps.

Lemma raises_set_section (s : section) : raises_section (_set_section s).
Proof.
  intros r. unfold _set_section.
  destruct (decide (section_ r <> s)); simpl; [|done].
  destruct (decide _); simpl; [done|lia].
Qed.

Lemma raises_bind_keeps {A B} (m : M A) (f : A -> M B) :
  raises_section m -> (forall x, keeps_section (f x)) -> raises_section (m ≫= f).
Proof.
  intros Hm Hf r. unfold mbind, M_bind.
  specialize (Hm r). destruct (m r) as [[e|x] r1]; simpl in *; [done|].
  rewrite Hf. done.
Qed.

Lemma raises_run_call (cd : codec) (c : call) : raises_section (run_call cd c).
Proof.
  destruct c; simpl; unfold add_question, add_rrset, add_rdataset;
    apply raises_bind_keeps; try apply raises_set_section; intros _;
    auto 10 with keeps.
Qed.

(** The records a call log attributes to section [s]. *)
Definition records_in (log : list (section * Z)) (s : section) : Z :=
  fold_right (fun e acc => if decide (e.1 = s) then e.2 + acc else acc) 0 log.

(** What a successful run keeps: a reserved header and four counters. *)
Definition hdr_inv (r : Renderer) : Prop :=
  (12 <= length (buf (output r)))%nat /\ length (counts r) = 4%nat.

Lemma bio_write_length (b : BytesIO) (bs : list Z) :
  (length (buf b) <= length (buf (bio_write b bs)))%nat.
Proof.
  unfold bio_write; simpl.
  rewrite !length_app, length_take, length_drop, !length_app, length_replicate. lia.
Qed.

Lemma set_section_inr (s : section) (r r0 : Renderer) (u : unit) :
  _set_section s r = (inr u, r0) -> r0 = set_section_field r (section_ r0).
Proof.
  unfold _set_section. intros H.
  destruct (decide (section_ r <> s)); [destruct (decide _)|]; inversion H; subst; [done|].
  match goal with |- ?x = _ => destruct x end. done.
Qed.

Lemma track_size_inr {A} (body : M A) (r r2 : Renderer) (x : A) :
  _track_size body r = (inr x, r2) -> body r = (inr x, r2).
Proof.
  unfold _track_size, mbind, M_bind, gets, raise, _rollback, modify; simpl.
  destruct (body r) as [[e|y] r1]; simpl; [intros H; inversion H|].
  destruct (_ >? _); intros H; inversion H; subst; done.
Qed.

(** The bytes [pack_Hs] produces for in-range values. *)
Lemma pack_Hs_ok (vs : list Z) (r : Renderer) :
  Forall (fun v => 0 <= v < 65536) vs ->
  pack_Hs vs r = (inr (concat (map (fun v => [v / 256; v mod 256]) vs)), r).
Proof.
  intros Hall. induction Hall as [|v vs Hv Hall IH]; [done|]. simpl.
  rewrite (pack_H_ok v Hv). unfold mbind, M_bind, mret, M_ret at 1. simpl.
  rewrite IH. done.
Qed.

Lemma be16_pack (v : Z) : 0 <= v -> be16 v = [v / 256; v mod 256].
Proof.
  intros Hv. unfold be16.
  rewrite Z.shiftr_div_pow2 by lia.
  change 255 with (Z.ones 8). rewrite Z.land_ones by lia. done.
Qed.

(** One successful content-adding call: the header stays reserved, the
    id and flags stay, and the call's records go to its section's count. *)
Lemma run_call_inr (cd : codec) (c : call) (r r1 : Renderer) (u : unit) :
  run_call cd c r = (inr u, r1) -> hdr_inv r ->
  hdr_inv r1 /\ id r1 = id r /\ flags r1 = flags r /\
  counts r1 = <[section_index (call_section c) :=
                 counts r !!! section_index (call_section c) + call_records cd c r]>
                (counts r).
Proof.
  intros H [Hb Hc].
  destruct c as [q t k | s rr | s nm rd]; simpl in H |- *;
    unfold add_question, add_rrset, add_rdataset, mbind, M_bind in H;
    destruct (_set_section _ r) as [[e|[]] r0] eqn:Hs; try discriminate H;
    apply set_section_inr in Hs;
    match type of H with
    | context [_track_size ?b r0] =>
        destruct (_track_size b r0) as [[e|x] r2] eqn:Ht; try discriminate H;
        apply track_size_inr in Ht
    end;
    unfold add_count, modify in H; inversion H; subst r1; clear H.
  - unfold write_name in Ht. rewrite Hs in Ht. simpl in Ht.
    destruct (name_to_wire cd q (compress r) (origin r) (pos (output r))) as [bs c1].
    unfold pack_Hs, pack_H in Ht. simpl in Ht.
    unfold mbind, M_bind, mret, M_ret, raise, write, modify in Ht.
    destruct ((0 <=? t) && (t <? 65536)); [|discriminate Ht].
    destruct ((0 <=? k) && (k <? 65536)); [|discriminate Ht].
    inversion Ht; subst r2; clear Ht.
    unfold hdr_inv; cbn -[bio_write]; repeat split; try (rewrite length_insert; done).
    eapply Nat.le_trans; [|apply bio_write_length].
    eapply Nat.le_trans; [|apply bio_write_length]. done.
  - unfold write_rrset in Ht. rewrite Hs in Ht. simpl in Ht.
    destruct (rrset_to_wire cd rr (compress r) (origin r) (pos (output r)))
      as [[bs c1] n] eqn:E.
    inversion Ht; subst r2 x; clear Ht.
    unfold hdr_inv; cbn -[bio_write]; repeat split; try (rewrite length_insert; done);
      try (rewrite E; done).
    eapply Nat.le_trans; [|apply bio_write_length]. done.
  - unfold write_rdataset in Ht. rewrite Hs in Ht. simpl in Ht.
    destruct (rdataset_to_wire cd nm rd (compress r) (origin r) (pos (output r)))
      as [[bs c1] n] eqn:E.
    inversion Ht; subst r2 x; clear Ht.
    unfold hdr_inv; cbn -[bio_write]; repeat split; try (rewrite length_insert; done);
      try (rewrite E; done).
    eapply Nat.le_trans; [|apply bio_write_length]. done.
Qed.

Lemma section_index_inj (s1 s2 : section) :
  section_index s1 = section_index s2 -> s1 = s2.
Proof. destruct s1, s2; simpl; intros H; congruence. Qed.

Lemma section_index_lt (s : section) : (section_index s < 4)%nat.
Proof. destruct s; simpl; lia. Qed.

Lemma run_calls_inr (cd : codec) (cs : list call) (r r' : Renderer)
    (log : list (section * Z)) :
  run_calls cd cs r = (inr log, r') -> hdr_inv r ->
  hdr_inv r' /\ id r' = id r /\ flags r' = flags r /\
  forall s, counts r' !!! section_index s = counts r !!! section_index s + records_in log s.
Proof.
  revert r r' log.
  induction cs as [|c cs IH]; intros r r' log H Hinv; simpl in H.
  - inversion H; subst. repeat split; try apply Hinv. intros s. simpl. lia.
  - unfold mbind, M_bind, gets at 1 in H.
    destruct (run_call cd c r) as [[e|u] r1] eqn:E1; [discriminate H|].
    destruct (run_calls cd cs r1) as [[e|log1] r2] eqn:E2; [discriminate H|].
    unfold mret, M_ret in H. inversion H; subst r2 log; clear H.
    destruct (run_call_inr cd c r r1 u E1 Hinv) as (Hinv1 & Hid1 & Hfl1 & Hc1).
    destruct (IH r1 r' log1 E2 Hinv1) as (Hinv2 & Hid2 & Hfl2 & Hc2).
    split; [done|]. split; [congruence|]. split; [congruence|].
    intros s. rewrite Hc2, Hc1. simpl.
    destruct Hinv as [_ Hlen].
    destruct (decide (call_section c = s)) as [->|Hne].
    + rewrite list_lookup_total_insert.
      case_decide as Hd; [lia|].
      exfalso. apply Hd. split; [done|]. rewrite Hlen. apply section_index_lt.
    + rewrite list_lookup_total_insert_ne
        by (intros Heq; apply Hne; apply section_index_inj; exact Heq).
      done.
Qed.

Lemma write_header_ok (r : Renderer) :
  hdr_inv r ->
  Forall (fun v => 0 <= v < 65536)
    [id r; flags r; counts r !!! 0%nat; counts r !!! 1%nat;
     counts r !!! 2%nat; counts r !!! 3%nat] ->
  write_header r =
    (inr tt, set_output r (mkBytesIO
       (concat (map (fun v => [v / 256; v mod 256])
          [id r; flags r; counts r !!! 0%nat; counts r !!! 1%nat;
           counts r !!! 2%nat; counts r !!! 3%nat])
        ++ drop 12 (buf (output r))) (pos (output r)))).
Proof.
  intros [Hb _] Hall. unfold write_header, _temporarily_seek_to.
  unfold mbind, M_bind, gets. cbn -[pack_Hs].
  rewrite (pack_Hs_ok _ _ Hall). unfold write, modify. simpl.
  unfold bio_write. simpl.
  replace (0 - length (buf (output r)))%nat with 0%nat by lia. simpl.
  rewrite app_nil_r. done.
Qed.

Lemma init_counts (i f ms : Z) (o : option name) (s : section) :
  counts (init i f ms o) !!! section_index s = 0.
Proof. destruct s; done. Qed.

(** Sample inputs: a question for [a.] and an answer RRset of two
    addresses for it. *)
Definition example_rrset : rrset :=
  mkRRset ["a"%string] 300 1 1 [OtherRdata 1 1 [10; 0; 0; 1]; OtherRdata 1 1 [10; 0; 0; 2]].

Definition example_calls : list call :=
  [AddQuestion ["a"%string] 1 1; AddRRset ANSWER example_rrset].

(** The renderer after the question of [padded_example]. *)
Definition after_question : Renderer :=
  snd (add_question spec_codec ["a"%string] 1 1 (init 4660 256 65535 None)).

(** C1: a content-adding call whose write takes the buffer past
    [max_size] raises [TooBig] and leaves the renderer exactly as it was,
    except for the section it entered: the buffer is cut back to the old
    position, the compression table is the old one, and the counts are
    unchanged. *)
Theorem add_too_big_rolls_back (cd : codec) (c : call) (r : Renderer)
  (Hwf : wf r)
  (Hsec : (section_index (section_ r) <= section_index (call_section c))%nat)
  (Hpack : match c with
           | AddQuestion _ t k => 0 <= t < 65536 /\ 0 <= k < 65536
           | _ => True end)
  (Htab : table_grows (compress r) (call_write cd c r).2 (pos (output r)))
  (Hbig : max_size r < Z.of_nat (length (buf (output r)) + length (call_write cd c r).1)) :
  run_call cd c r = (inl TooBig, set_section_field r (call_section c)).
Proof.
  pose proof Hwf as [Hpos _].
  destruct c as [q t k | s rr | s nm rd]; simpl in Hsec, Hpack, Htab, Hbig |- *.
  - destruct (name_to_wire cd q (compress r) (origin r) (pos (output r))) as [bs c1] eqn:E.
    simpl in Htab, Hbig. destruct Hpack as [Ht Hk].
    unfold add_question.
    rewrite (bind_inr _ _ r (set_section_field r QUESTION) tt) by (apply set_section_forward; done).
    apply bind_inl.
    set (ws := bs ++ [t / 256; t mod 256; k / 256; k mod 256]).
    set (r1 := set_compress (set_output (set_section_field r QUESTION)
                 (mkBytesIO (buf (output r) ++ ws) (pos (output r) + length ws))) c1).
    assert (Hw : (write_name cd q ≫= (fun _ => pack_Hs [t; k] ≫= (fun bs => write bs)))
                   (set_section_field r QUESTION) = (inr tt, r1)).
    { assert (Hn : write_name cd q (set_section_field r QUESTION) =
        (inr tt, set_compress (set_output (set_section_field r QUESTION)
                                (bio_write (output r) bs)) c1)).
      { unfold write_name. simpl. rewrite E. done. }
      rewrite (bind_inr _ _ _ _ tt Hn).
      unfold pack_Hs. rewrite (pack_H_ok t Ht), (pack_H_ok k Hk).
      unfold mbind, M_bind, mret, M_ret, write, modify; simpl.
      rewrite (bio_write_end (output r) bs Hpos).
      rewrite bio_write_end by (simpl; rewrite length_app; lia).
      unfold r1, ws. simpl. rewrite <- app_assoc, length_app, Nat.add_assoc. done. }
    rewrite (track_size_over _ _ r1 tt Hw) by (simpl; rewrite <- Hpos in Hbig; exact Hbig).
    f_equal. exact (rolled_back r QUESTION ws c1 Hwf Htab).
  - destruct (rrset_to_wire cd rr (compress r) (origin r) (pos (output r)))
      as [[bs c1] n] eqn:E.
    simpl in Htab, Hbig.
    unfold add_rrset.
    rewrite (bind_inr _ _ r (set_section_field r s) tt) by (apply set_section_forward; done).
    apply bind_inl.
    set (r1 := set_compress (set_output (set_section_field r s)
                 (mkBytesIO (buf (output r) ++ bs) (pos (output r) + length bs))) c1).
    assert (Hw : write_rrset cd rr (set_section_field r s) = (inr n, r1)).
    { unfold write_rrset. simpl. rewrite E. rewrite bio_write_end by done. done. }
    rewrite (track_size_over _ _ r1 n Hw) by (simpl; rewrite <- Hpos in Hbig; exact Hbig).
    f_equal. exact (rolled_back r s bs c1 Hwf Htab).
  - destruct (rdataset_to_wire cd nm rd (compress r) (origin r) (pos (output r)))
      as [[bs c1] n] eqn:E.
    simpl in Htab, Hbig.
    unfold add_rdataset.
    rewrite (bind_inr _ _ r (set_section_field r s) tt) by (apply set_section_forward; done).
    apply bind_inl.
    set (r1 := set_compress (set_output (set_section_field r s)
                 (mkBytesIO (buf (output r) ++ bs) (pos (output r) + length bs))) c1).
    assert (Hw : write_rdataset cd nm rd (set_section_field r s) = (inr n, r1)).
    { unfold write_rdataset. simpl. rewrite E. rewrite bio_write_end by done. done. }
    rewrite (track_size_over _ _ r1 n Hw) by (simpl; rewrite <- Hpos in Hbig; exact Hbig).
    f_equal. exact (rolled_back r s bs c1 Hwf Htab).
Qed.

(** C2: [_set_section s] does nothing when [s] is the current section,
    raises [FormError] (changing nothing) when [s] comes before it, and
    otherwise moves to [s]; so a content-adding call aimed at an earlier
    section raises [FormError] and leaves the whole renderer, its buffer
    included, as it was, and no call ever moves the current section
    backwards. *)
Theorem section_state_machine (cd : codec) :
  (forall s r, _set_section s r =
     if decide (section_ r = s) then (inr tt, r)
     else if decide (section_index s < section_index (section_ r))%nat
          then (inl FormError, r)
          else (inr tt, set_section_field r s)) /\
  (forall c r, (section_index (call_section c) < section_index (section_ r))%nat ->
     run_call cd c r = (inl FormError, r)) /\
  (forall c r res r', run_call cd c r = (res, r') ->
     (section_index (section_ r) <= section_index (section_ r'))%nat).
Proof.
  split; [|split].
  - intros s r. unfold _set_section.
    destruct (decide (section_ r = s)) as [Heq|Hne].
    + rewrite decide_False by (intros H; exact (H Heq)). done.
    + rewrite decide_True by done. done.
  - intros c r Hlt.
    assert (Hs : _set_section (call_section c) r = (inl FormError, r)).
    { unfold _set_section.
      rewrite decide_True by (intros Heq; rewrite Heq in Hlt; lia).
      rewrite decide_True by done. done. }
    destruct c; simpl in *; unfold add_question, add_rrset, add_rdataset;
      apply bind_inl; exact Hs.
  - intros c r res r' H.
    pose proof (raises_run_call cd c r) as Hr. rewrite H in Hr. exact Hr.
Qed.

(** C3: after any run of content-adding calls on a fresh renderer that all
    succeed, [write_header] succeeds when the id, the flags and the four
    totals fit in 16 bits; the first 12 bytes of the wire are then the
    big-endian id, flags and, per section, the number of records the calls
    appended to it (as their serializers reported, one per question); the
    rest of the buffer and the write position are as before. *)
Theorem write_header_counts (cd : codec) (i f ms : Z) (o : option name)
  (cs : list call) (log : list (section * Z)) (r : Renderer)
  (Hrun : run_calls cd cs (init i f ms o) = (inr log, r))
  (Hid : 0 <= i < 65536) (Hflags : 0 <= f < 65536)
  (Hcounts : forall s, 0 <= records_in log s < 65536) :
  exists r', write_header r = (inr tt, r') /\
    take 12 (get_wire r') =
      be16 i ++ be16 f ++ be16 (records_in log QUESTION) ++ be16 (records_in log ANSWER)
      ++ be16 (records_in log AUTHORITY) ++ be16 (records_in log ADDITIONAL) /\
    drop 12 (get_wire r') = drop 12 (get_wire r) /\
    pos (output r') = pos (output r).
Proof.
  assert (Hinit : hdr_inv (init i f ms o)) by (split; simpl; lia).
  destruct (run_calls_inr cd cs _ r log Hrun Hinit) as (Hinv & Hi & Hf & Hc).
  simpl in Hi, Hf.
  assert (Hq := Hc QUESTION). assert (Ha := Hc ANSWER).
  assert (Hn := Hc AUTHORITY). assert (Hd := Hc ADDITIONAL).
  rewrite !init_counts, !Z.add_0_l in Hq, Ha, Hn, Hd. simpl in Hq, Ha, Hn, Hd.
  pose proof (Hcounts QUESTION). pose proof (Hcounts ANSWER).
  pose proof (Hcounts AUTHORITY). pose proof (Hcounts ADDITIONAL).
  eexists. split.
  - apply write_header_ok; [exact Hinv|].
    rewrite Hi, Hf, Hq, Ha, Hn, Hd. repeat constructor; lia.
  - unfold get_wire.
    rewrite (be16_pack i), (be16_pack f), (be16_pack (records_in log QUESTION)),
      (be16_pack (records_in log ANSWER)), (be16_pack (records_in log AUTHORITY)),
      (be16_pack (records_in log ADDITIONAL)) by lia.
    simpl. rewrite Hi, Hf, Hq, Ha, Hn, Hd. split; [done|]. split; [done|]. done.
Qed.

(** C4 (amended): with [pad > 0], [opt_size >= 11] and an OPT rdata first
    in [opt], [add_opt] computes [remainder = (buffer length + opt_size +
    tsig_size) mod pad], appends a PADDING option of [pad - remainder] zero
    bytes when [remainder <> 0] and an empty PADDING option when
    [remainder = 0], marks the renderer padded and adds the rebuilt OPT
    record to ADDITIONAL; the padding brings the predicted length to a
    multiple of [pad].  The concrete message [padded_example] (one
    question, no answers, [pad = 128], no TSIG) renders to 128 bytes. *)
Theorem add_opt_padding (cd : codec) (r : Renderer) (opt : rrset)
  (pad opt_size tsig_size rdclass : Z) (options : list edns_option) (rest : list rdata)
  (Hpos : pos (output r) = length (buf (output r)))
  (Hpad : 0 < pad) (Hsize : 11 <= opt_size)
  (Hopt : rr_rdatas opt = OPT rdclass options :: rest) :
  let size := Z.of_nat (length (buf (output r))) + opt_size + tsig_size in
  let pad_b := if decide (size mod pad = 0) then []
               else replicate (Z.to_nat (pad - size mod pad)) 0 in
  add_opt cd opt pad opt_size tsig_size r =
    add_rrset cd ADDITIONAL
      (_make_opt (rr_ttl opt) rdclass (options ++ [GenericOption PADDING pad_b]))
      (set_was_padded r true) /\
  (size + Z.of_nat (length pad_b)) mod pad = 0 /\
  fst padded_example = inr tt /\ length (get_wire (snd padded_example)) = 128%nat.
Proof.
  intros size pad_b. split; [|split].
  - unfold add_opt. rewrite decide_True by lia.
    replace (opt_size >=? 11) with true by (symmetry; apply Z.geb_le; lia).
    rewrite Hopt. unfold mbind, M_bind, gets, modify. cbn -[add_rrset].
    rewrite Hpos. fold size. unfold pad_b.
    destruct (decide (size mod pad = 0)) as [H0|H0].
    + rewrite decide_False by (intros H; exact (H H0)). done.
    + rewrite decide_True by exact H0. done.
  - unfold pad_b. pose proof (Z.mod_pos_bound size pad Hpad) as Hb.
    destruct (decide (size mod pad = 0)) as [H0|H0]; simpl.
    + rewrite Z.add_0_r. exact H0.
    + rewrite length_replicate, Z2Nat.id by lia.
      replace (size + (pad - size mod pad)) with ((size / pad + 1) * pad).
      * apply Z.mod_mul. lia.
      * rewrite (Z.div_mod size pad) at 2 by lia. lia.
  - vm_compute. split; reflexivity.
Qed.

End RendererClaims.

(** C1: the question [example.] does not fit a 20-byte limit. *)
Lemma add_too_big_rolls_back_witness :
  Renderer.run_call Renderer.spec_codec (Renderer.AddQuestion ["example"%string] 1 1)
    (Renderer.init 1 0 20 None) =
  (inl Renderer.TooBig,
   Renderer.set_section_field (Renderer.init 1 0 20 None) Renderer.QUESTION).
Proof.
  apply (add_too_big_rolls_back Renderer.spec_codec
           (Renderer.AddQuestion ["example"%string] 1 1) (Renderer.init 1 0 20 None)).
  - split; [reflexivity | apply map_Forall_empty].
  - simpl. lia.
  - simpl. lia.
  - unfold table_grows. apply (bool_decide_unpack _). vm_compute. reflexivity.
  - vm_compute. reflexivity.
Defined.

(** C2: once in ADDITIONAL, adding an RRset to AUTHORITY is refused. *)
Lemma section_state_machine_witness :
  let r := Renderer.set_section_field (Renderer.init 1 0 512 None) Renderer.ADDITIONAL in
  Renderer.run_call Renderer.spec_codec (Renderer.AddRRset Renderer.AUTHORITY example_rrset) r
  = (inl Renderer.FormError, r).
Proof.
  intros r.
  apply (proj1 (proj2 (section_state_machine Renderer.spec_codec))).
  simpl. lia.
Defined.

(** C3: a question and a two-record answer give the counts 1 and 2. *)
Lemma write_header_counts_witness :
  exists r', Renderer.write_header
      (snd (Renderer.run_calls Renderer.spec_codec example_calls
              (Renderer.init 4660 256 512 None))) = (inr tt, r') /\
    take 12 (Renderer.get_wire r') =
      Renderer.be16 4660 ++ Renderer.be16 256
      ++ Renderer.be16 (records_in [(Renderer.QUESTION, 1); (Renderer.ANSWER, 2)] Renderer.QUESTION)
      ++ Renderer.be16 (records_in [(Renderer.QUESTION, 1); (Renderer.ANSWER, 2)] Renderer.ANSWER)
      ++ Renderer.be16 (records_in [(Renderer.QUESTION, 1); (Renderer.ANSWER, 2)] Renderer.AUTHORITY)
      ++ Renderer.be16 (records_in [(Renderer.QUESTION, 1); (Renderer.ANSWER, 2)]
                          Renderer.ADDITIONAL) /\
    drop 12 (Renderer.get_wire r') =
      drop 12 (Renderer.get_wire (snd (Renderer.run_calls Renderer.spec_codec example_calls
                                          (Renderer.init 4660 256 512 None)))) /\
    Renderer.pos (Renderer.output r') =
      Renderer.pos (Renderer.output (snd (Renderer.run_calls Renderer.spec_codec example_calls
                                          (Renderer.init 4660 256 512 None)))).
Proof.
  apply (write_header_counts Renderer.spec_codec 4660 256 512 None example_calls
           [(Renderer.QUESTION, 1); (Renderer.ANSWER, 2)]).
  - vm_compute. reflexivity.
  - lia.
  - lia.
  - intros []; simpl; lia.
Defined.

(** C4: padding [padded_example]'s OPT record after its question. *)
Lemma add_opt_padding_witness :
  let size := Z.of_nat (length (Renderer.buf (Renderer.output after_question))) + 15 + 0 in
  let pad_b := if decide (size mod 128 = 0) then []
               else replicate (Z.to_nat (128 - size mod 128)) 0 in
  Renderer.add_opt Renderer.spec_codec (Renderer._make_opt 0 1232 []) 128 15 0 after_question =
    Renderer.add_rrset Renderer.spec_codec Renderer.ADDITIONAL
      (Renderer._make_opt 0 1232 ([] ++ [Renderer.GenericOption Renderer.PADDING pad_b]))
      (Renderer.set_was_padded after_question true) /\
  (size + Z.of_nat (length pad_b)) mod 128 = 0 /\
  fst Renderer.padded_example = inr tt /\
  length (Renderer.get_wire (snd Renderer.padded_example)) = 128%nat.
Proof.
  apply (add_opt_padding Renderer.spec_codec after_question (Renderer._make_opt 0 1232 [])
           128 15 0 1232 [] []).
  - vm_compute. reflexivity.
  - lia.
  - lia.
  - reflexivity.
Defined.

(** C4 as stated fails for the default [opt_size = 0]: with [pad = 128]
    [add_opt] stops at its assertion, adds no padding and does not mark the
    message padded. *)
Lemma add_opt_default_size_asserts :
  Renderer.add_opt Renderer.spec_codec (Renderer._make_opt 0 1232 []) 128 0 0 after_question =
    (inl Renderer.AssertionError, after_question) /\
  Renderer.was_padded after_question = false.
Proof. vm_compute. split; reflexivity. Qed.

Section SerialExtra.
Import Serial.

Lemma gt_values_flip (w : N) (x y : Z) : gt_values w x y = lt_values w y x.
Proof. unfold gt_values, lt_values. zcmp. Qed.

Lemma serial_record_eta (s : Serial) : s = {| value := value s; bits := bits s |}.
Proof. by destruct s. Qed.

(** [s + d] then [- d] gives back [s]; the in-place forms agree. *)
Theorem serial_add_sub_roundtrip (s : Serial) (d : Z) :
  valid s -> Z.abs d <= half (bits s) - 1 ->
  exists t, serial_add s (OpInt d) = ArOk t /\ serial_sub t (OpInt d) = ArOk s /\
            serial_iadd s (OpInt d) = ArOk t /\ serial_isub t (OpInt d) = ArOk s.
Proof.
  intros Hv Hd. unfold valid in Hv.
  assert (HM : 0 < 2 ^ Z.of_N (bits s)) by (apply Z.pow_pos_nonneg; lia).
  assert (E : (Z.abs d >? half (bits s) - 1) = false) by (rewrite Z.gtb_ltb; apply Z.ltb_ge; lia).
  exists (Serial_new ((value s + d) mod 2 ^ Z.of_N (bits s)) (bits s)).
  assert (Hback : forall x, x mod 2 ^ Z.of_N (bits s) = value s ->
            {| value := x mod 2 ^ Z.of_N (bits s); bits := bits s |} = s).
  { intros x ->. by destruct s. }
  unfold serial_add, serial_sub, serial_iadd, serial_isub, Serial_new; simpl.
  rewrite !E. simpl. rewrite !Zmod_mod.
  assert (Hs : {| value := ((value s + d) mod 2 ^ Z.of_N (bits s) - d) mod 2 ^ Z.of_N (bits s);
                  bits := bits s |} = s).
  { apply Hback. rewrite Zminus_mod_idemp_l.
    replace (value s + d - d) with (value s) by lia. apply Z.mod_small. lia. }
  rewrite Hs. repeat split.
Qed.


(** Adding a delta [1 <= d <= 2^(bits-1) - 1] moves a serial strictly
    forward: [s < s + d] and [s + d > s]. *)
Theorem serial_add_increases (s : Serial) (d : Z) :
  valid s -> 1 <= d <= half (bits s) - 1 ->
  exists t, serial_add s (OpInt d) = ArOk t /\
    serial_lt s (OpSerial t) = Ret true /\ serial_gt t (OpSerial s) = Ret true /\
    serial_lt t (OpSerial s) = Ret false.
Proof.
  intros Hv Hd. unfold valid in Hv.
  assert (HM : 0 < 2 ^ Z.of_N (bits s)) by (apply Z.pow_pos_nonneg; lia).
  assert (Hw : (1 <= bits s)%N).
  { destruct (N.eq_dec (bits s) 0%N) as [E0|]; [|lia]. rewrite E0, half_zero in Hd. lia. }
  pose proof (pow_half _ Hw) as Hp.
  assert (E : (Z.abs d >? half (bits s) - 1) = false) by (rewrite Z.gtb_ltb; apply Z.ltb_ge; lia).
  eexists. unfold serial_add. rewrite E. split; [reflexivity|].
  unfold serial_lt, serial_gt, Serial_new; simpl. rewrite N.eqb_refl. simpl.
  rewrite Zmod_mod, gt_values_flip.
  assert (Ht : 0 <= (value s + d) mod 2 ^ Z.of_N (bits s) < 2 ^ Z.of_N (bits s))
    by (apply Z.mod_pos_bound; lia).
  rewrite !lt_values_formula by lia.
  rewrite Zminus_mod_idemp_l. replace (value s + d - value s) with d by lia.
  rewrite Z.mod_small by lia.
  rewrite Zminus_mod_idemp_r. replace (value s - (value s + d)) with (- d) by lia.
  rewrite Z.mod_opp_l_nz by (rewrite ?Z.mod_small; lia).
  rewrite Z.mod_small by lia.
  split; [f_equal; apply andb_true_intro; split; apply Z.ltb_lt; lia|].
  split; [f_equal; apply andb_true_intro; split; apply Z.ltb_lt; lia|].
  f_equal. apply andb_false_intro2. apply Z.ltb_ge. lia.
Qed.



(** Trichotomy on valid same-width serials: exactly one of [a < b],
    [a == b], [a > b] holds, except at the antipodal distance
    [(b - a) mod 2^bits = 2^(bits-1)], where none does. *)
Theorem serial_trichotomy (a b : Serial) :
  bits a = bits b -> valid a -> valid b ->
  exists lt eq gt,
    serial_lt a (OpSerial b) = Ret lt /\ serial_eq a (OpSerial b) = Ret eq /\
    serial_gt a (OpSerial b) = Ret gt /\
    if decide ((1 <= bits a)%N /\ (value b - value a) mod 2 ^ Z.of_N (bits a) = half (bits a))
    then lt = false /\ eq = false /\ gt = false
    else (Nat.b2n lt + Nat.b2n eq + Nat.b2n gt = 1)%nat.
Proof.
  intros Hw Ha Hb. unfold valid in *. rewrite <- Hw in Hb.
  unfold serial_lt, serial_eq, serial_gt. rewrite Hw, N.eqb_refl. simpl. rewrite <- Hw.
  eexists _, _, _. split; [reflexivity|]. split; [reflexivity|]. split; [reflexivity|].
  rewrite gt_values_flip, !lt_values_formula by lia.
  destruct (N.eq_dec (bits a) 0%N) as [E0|Hw1].
  - rewrite E0 in *. change (2 ^ Z.of_N 0) with 1 in *.
    assert (Ha0 : value a = 0) by lia. assert (Hb0 : value b = 0) by lia.
    case_decide as Hc; [destruct Hc as [Hc _]; lia|]. rewrite Ha0, Hb0. reflexivity.
  - pose proof (pow_half (bits a) ltac:(lia)) as Hp. pose proof (half_pos (bits a) ltac:(lia)).
    set (M := 2 ^ Z.of_N (bits a)) in *.
    assert (Hd1 : 0 <= (value b - value a) mod M < M) by (apply Z.mod_pos_bound; lia).
    assert (Hsum : (value b - value a) mod M = 0 /\ (value a - value b) mod M = 0 \/
                   (value b - value a) mod M + (value a - value b) mod M = M).
    { destruct (Z.eq_dec (value b) (value a)) as [->|Hne].
      - left. rewrite Z.sub_diag, Z.mod_0_l by lia. done.
      - right. replace (value a - value b) with (- (value b - value a)) by lia.
        rewrite Z.mod_opp_l_nz; [lia|lia|].
        intros H0. apply Z.mod_divide in H0; [|lia].
        destruct H0 as [k Hk]. assert (k = 0) by nia. subst k. lia. }
    assert (Heqv : (value a =? value b) = ((value b - value a) mod M =? 0)).
    { destruct (Z.eqb_spec (value a) (value b)) as [->|Hne].
      - rewrite Z.sub_diag, Z.mod_0_l by lia. done.
      - symmetry. apply Z.eqb_neq. intros H0. apply Z.mod_divide in H0; [|lia].
        destruct H0 as [k Hk]. assert (k = 0) by nia. subst k. lia. }
    rewrite Heqv. case_decide as Hant.
    + destruct Hant as [_ Hant]. rewrite Hant.
      assert (Hr : (value a - value b) mod M = half (bits a)) by lia.
      rewrite Hr, Z.ltb_irrefl, andb_false_r.
      rewrite (proj2 (Z.eqb_neq _ _)) by lia. done.
    + assert (Hne : (value b - value a) mod M <> half (bits a))
        by (intros E; apply Hant; split; [lia|done]).
      destruct Hsum as [[-> ->]|Hsum].
      * done.
      * zcmp; destruct (Z.eqb_spec ((value b - value a) mod M) 0); simpl; lia.
Qed.

(** Arithmetic on narrow serials: at width 0 every addition and
    subtraction raises [ValueError], at width 1 only the delta [0] is
    accepted. *)
Theorem serial_narrow_arith (s : Serial) (d : Z) :
  (bits s = 0%N -> serial_add s (OpInt d) = ArValueError /\
                   serial_sub s (OpInt d) = ArValueError) /\
  (bits s = 1%N -> (serial_add s (OpInt d) = ArValueError <-> d <> 0) /\
                   (serial_sub s (OpInt d) = ArValueError <-> d <> 0)).
Proof.
  unfold serial_add, serial_sub. split.
  - intros E. rewrite E. rewrite half_zero.
    replace (Z.abs d >? 0 - 1) with true by (symmetry; rewrite Z.gtb_ltb; apply Z.ltb_lt; lia).
    done.
  - intros E. rewrite E. unfold half. change (2 ^ (Z.of_N 1 - 1) - 1) with 0.
    destruct (Z.abs d >? 0) eqn:Ed; rewrite Z.gtb_ltb in Ed.
    + apply Z.ltb_lt in Ed. split; split; intros; try done; lia.
    + apply Z.ltb_ge in Ed. split; split; intros H; try discriminate H; lia.
Qed.

(** The in-place operators compute the same serial as the plain ones,
    and raise in the same cases. *)
Theorem serial_inplace_agrees (s : Serial) (o : operand) :
  serial_iadd s o = serial_add s o /\ serial_isub s o = serial_sub s o.
Proof.
  unfold serial_iadd, serial_add, serial_isub, serial_sub, Serial_new.
  split; destruct o; simpl; try reflexivity;
    match goal with |- context [if ?c then _ else _] => destruct c end;
    rewrite ?Zmod_mod; reflexivity.
Qed.

End SerialExtra.


Section SetExtra.
Import PySet PySetMore.
Context {T : Type} `{EqDecision T}.

Lemma nodup_add_item (l : list T) (x : T) : NoDup l -> NoDup (add_item l x).
Proof.
  intros Hl. unfold add_item. case_decide as Hx; [done|].
  apply NoDup_app. split; [done|]. split; [|apply NoDup_singleton].
  intros y Hy Hy'. apply list_elem_of_singleton in Hy'. subst. done.
Qed.

Lemma nodup_fold_add (l acc : list T) : NoDup acc -> NoDup (fold_left add_item l acc).
Proof.
  revert acc. induction l as [|x l IH]; intros acc Hacc; simpl; [done|].
  apply IH, nodup_add_item, Hacc.
Qed.

Lemma fold_add_prefix (l acc : list T) : exists new, fold_left add_item l acc = acc ++ new.
Proof.
  revert acc. induction l as [|x l IH]; intros acc; simpl; [exists []; by rewrite app_nil_r|].
  destruct (IH (add_item acc x)) as [new Hn]. rewrite Hn. unfold add_item.
  case_decide; [by exists new|]. exists (x :: new). by rewrite <- app_assoc.
Qed.

Lemma nodup_discard (l : list T) (x : T) : NoDup l -> NoDup (discard_item l x).
Proof. intros Hl. unfold discard_item. by apply NoDup_filter. Qed.

Lemma nodup_fold_discard (l acc : list T) : NoDup acc -> NoDup (fold_left discard_item l acc).
Proof.
  revert acc. induction l as [|x l IH]; intros acc Hacc; simpl; [done|].
  apply IH, nodup_discard, Hacc.
Qed.

Lemma nodup_fold_keep (O l acc : list T) : NoDup acc ->
  NoDup (fold_left (fun acc x => if decide (x ∈ O) then acc else discard_item acc x) l acc).
Proof.
  revert acc. induction l as [|x l IH]; intros acc Hacc; simpl; [done|].
  apply IH. case_decide; [done|]. by apply nodup_discard.
Qed.

(** [Set(items)] holds each item of [items] once, and [s.update(other)]
    keeps the items of [s] in front, in their order, and adds the items of
    [other] it lacked, without duplicates. *)
Theorem set_update_spec (l0 other l : list T) :
  NoDup l0 ->
  NoDup (update l0 other) /\ (forall y, y ∈ update l0 other <-> y ∈ l0 \/ y ∈ other) /\
  (exists new, update l0 other = l0 ++ new) /\
  NoDup (set_new (Some l)) /\ (forall y, y ∈ set_new (Some l) <-> y ∈ l) /\
  set_new (T := T) None = [].
Proof.
  intros Hl0. unfold set_new, update.
  split; [by apply nodup_fold_add|]. split; [intros y; apply elem_fold_add|].
  split; [apply fold_add_prefix|]. split; [apply nodup_fold_add, NoDup_nil_2|].
  split; [|done]. intros y. rewrite elem_fold_add, elem_of_nil. tauto.
Qed.

Lemma nodup_set_items (h : @Heap T) (i : nat) (l : list T) :
  heap_nodup h -> NoDup l -> heap_nodup (set_items h i l).
Proof.
  intros Hh Hl j o. rewrite lookup_set_items. case_decide.
  - destruct (objs h !! i); simpl; [|done]. intros E. by injection E as <-.
  - apply Hh.
Qed.

Lemma nodup_clone (cc : nat -> option nat) (h h' : @Heap T) (s r : nat) :
  heap_nodup h -> clone cc h s = Some (h', r) -> heap_nodup h'.
Proof.
  intros Hh Hc. unfold clone in Hc.
  destruct (objs h !! s) as [so|] eqn:Es; simpl in Hc; [|done].
  injection Hc as <- <-. intros j o. simpl.
  destruct (decide (j = next_id h)) as [->|Hne].
  - rewrite lookup_insert_eq. intros E. injection E as <-. simpl. eapply Hh, Es.
  - rewrite lookup_insert_ne by congruence. apply Hh.
Qed.

Lemma nodup_union_update (h h' : @Heap T) (s o : nat) :
  heap_nodup h -> union_update h s o = Some h' -> heap_nodup h'.
Proof.
  intros Hh Hu. unfold union_update in Hu.
  destruct (objs h !! s) eqn:Es, (objs h !! o); try done.
  case_decide; injection Hu as <-; [done|].
  apply nodup_set_items; [done|]. apply nodup_fold_add. eapply Hh, Es.
Qed.

Lemma nodup_intersection_update (h h' : @Heap T) (s o : nat) :
  heap_nodup h -> intersection_update h s o = Some h' -> heap_nodup h'.
Proof.
  intros Hh Hu. unfold intersection_update in Hu.
  destruct (objs h !! s) eqn:Es, (objs h !! o); try done.
  case_decide; injection Hu as <-; [done|].
  apply nodup_set_items; [done|]. apply nodup_fold_keep. eapply Hh, Es.
Qed.

Lemma nodup_difference_update (h h' : @Heap T) (s o : nat) :
  heap_nodup h -> difference_update h s o = Some h' -> heap_nodup h'.
Proof.
  intros Hh Hu. unfold difference_update in Hu.
  destruct (objs h !! s) eqn:Es, (objs h !! o); try done.
  case_decide; injection Hu as <-; apply nodup_set_items; try done.
  - apply NoDup_nil_2.
  - apply nodup_fold_discard. eapply Hh, Es.
Qed.

Lemma nodup_intersection (cc : nat -> option nat) (h h' : @Heap T) (s o r : nat) :
  heap_nodup h -> intersection cc h s o = Some (h', r) -> heap_nodup h'.
Proof.
  intros Hh Hi. unfold intersection in Hi.
  destruct (clone cc h s) as [[h1 r1]|] eqn:Ec; simpl in Hi; [|done].
  destruct (intersection_update h1 r1 o) as [h2|] eqn:Eu; simpl in Hi; [|done].
  injection Hi as <- <-. eapply nodup_intersection_update; [|exact Eu].
  eapply nodup_clone; eauto.
Qed.

Lemma nodup_run_update (cc : nat -> option nat) (op : updop) (h h' : @Heap T) (s o : nat) :
  heap_nodup h -> run_update cc op h s o = Some h' -> heap_nodup h'.
Proof.
  intros Hh Hu. destruct op; simpl in Hu.
  - eapply nodup_union_update; eauto.
  - eapply nodup_intersection_update; eauto.
  - eapply nodup_difference_update; eauto.
  - unfold symmetric_difference_update in Hu.
    destruct (objs h !! s), (objs h !! o); try done. case_decide.
    + injection Hu as <-. apply nodup_set_items; [done|apply NoDup_nil_2].
    + destruct (intersection cc h s o) as [[h1 ov]|] eqn:Ei; simpl in Hu; [|done].
      destruct (union_update h1 s o) as [h2|] eqn:Eu; simpl in Hu; [|done].
      eapply nodup_difference_update; [|exact Hu].
      eapply nodup_union_update; [|exact Eu].
      eapply nodup_intersection; eauto.
Qed.

(** Every update method and every binary operation keeps each set's
    items free of duplicates. *)
Theorem set_ops_keep_nodup (cc : nat -> option nat) (h : @Heap T) (a b : nat) :
  heap_nodup h ->
  (forall op h', run_update cc op h a b = Some h' -> heap_nodup h') /\
  (forall op h' r, run_binop cc op h a b = Some (h', r) -> heap_nodup h').
Proof.
  intros Hh. split.
  - intros op h' Hu. eapply nodup_run_update; eauto.
  - intros op h' r Hb. rewrite run_binop_clone in Hb.
    destruct (clone cc h a) as [[h1 r1]|] eqn:Ec; simpl in Hb; [|done].
    destruct (run_update cc (binop_update op) h1 r1 b) as [h2|] eqn:Eu; simpl in Hb; [|done].
    injection Hb as <- <-. eapply nodup_run_update; [|exact Eu].
    eapply nodup_clone; eauto.
Qed.


Lemma discard_absent (l : list T) (x : T) : x ∉ l -> discard_item l x = l.
Proof.
  unfold discard_item. induction l as [|y l IH]; intros Hx; [done|].
  rewrite elem_of_cons in Hx. rewrite filter_cons_True by (intros ->; tauto).
  f_equal. apply IH. tauto.
Qed.

Lemma discard_at (l : list T) (i : nat) (x : T) :
  NoDup l -> l !! i = Some x -> discard_item l x = take i l ++ drop (S i) l.
Proof.
  intros Hnd Hi. pose proof (take_drop_middle l i x Hi) as Hl.
  rewrite <- Hl in Hnd. apply NoDup_app in Hnd as (_ & Hdis & Hnd2).
  apply NoDup_cons in Hnd2 as [Hx2 _].
  assert (Hx1 : x ∉ take i l) by (intros H1; apply (Hdis x H1); left).
  rewrite <- Hl at 1. unfold discard_item.
  rewrite filter_app, filter_cons_False by tauto.
  fold (discard_item (take i l) x) (discard_item (drop (S i) l) x).
  rewrite !discard_absent by done. done.
Qed.

(** [s.remove(x)] of a missing item raises [ValueError] and [s.discard(x)]
    leaves the set as it is; on a present item, both delete exactly its
    position, keeping the order of the others. *)
Theorem set_remove_discard (l : list T) (x : T) :
  (x ∉ l -> remove l x = inl ValueError /\ discard l x = l) /\
  (NoDup l -> forall i, l !! i = Some x ->
     remove l x = inr (take i l ++ drop (S i) l) /\ discard l x = take i l ++ drop (S i) l).
Proof.
  split.
  - intros Hx. unfold remove, discard. rewrite decide_False by done.
    split; [done|]. by apply discard_absent.
  - intros Hnd i Hi. unfold remove, discard.
    rewrite decide_True by (eapply list_elem_of_lookup_2; eauto).
    rewrite (discard_at l i x Hnd Hi). done.
Qed.

Lemma last_removelast (l : list T) (x : T) : last l = Some x -> l = removelast l ++ [x].
Proof.
  intros H. apply last_Some in H as [l' ->]. rewrite removelast_last. done.
Qed.

(** [s.pop()] on an empty set raises [KeyError]; otherwise it removes and
    returns the most recently added item, so [s.add(x)] of a new item
    followed by [s.pop()] returns [x] and gives back [s]. *)
Theorem set_pop_spec (l l' : list T) (x : T) :
  pop (T := T) [] = inl KeyError /\
  (pop l = inr (x, l') -> l = l' ++ [x]) /\
  (x ∉ l -> pop (add_item l x) = inr (x, l)).
Proof.
  split; [done|]. split.
  - unfold pop. destruct (last l) as [y|] eqn:E; [|done].
    intros H. injection H as -> <-. by apply last_removelast.
  - intros Hx. unfold pop, add_item. rewrite decide_False by done.
    rewrite last_snoc, removelast_last. done.
Qed.


Lemma forallb_elem (f : T -> bool) (l : list T) :
  forallb f l = true <-> forall x, x ∈ l -> f x = true.
Proof.
  rewrite forallb_forall. split; intros H x Hx; apply H; by apply list_elem_of_In.
Qed.

(** The subset tests and [==] against a non-[Set]: [issubset],
    [issuperset] and [isdisjoint] raise [ValueError], [==] is [False] and
    [!=] is [True].  Between sets, [a.issubset(b)] is [b.issuperset(a)],
    it holds exactly when every item of [a] is in [b], and [a == b] holds
    exactly when [a.issubset(b)] and [a.issuperset(b)] do. *)
Theorem set_subset_tests (l m : list T) :
  issubset l ANotSet = inl ValueError /\ issuperset l ANotSet = inl ValueError /\
  isdisjoint l ANotSet = inl ValueError /\
  set_eq_arg l ANotSet = false /\ set_ne_arg l ANotSet = true /\
  issubset l (ASet m) = issuperset m (ASet l) /\
  (issubset l (ASet m) = inr true <-> l ⊆ m) /\
  (set_eq_arg l (ASet m) = true <->
     issubset l (ASet m) = inr true /\ issuperset l (ASet m) = inr true).
Proof.
  assert (Hsub : forall a b : list T, issubset a (ASet b) = inr true <-> a ⊆ b).
  { intros a b. unfold issubset. split.
    - intros H. injection H as H. intros x Hx.
      apply (proj1 (forallb_elem _ _) H x) in Hx. by apply bool_decide_eq_true in Hx.
    - intros H. f_equal. apply forallb_elem. intros x Hx. apply bool_decide_eq_true. auto. }
  assert (Hsw : forall a b : list T, issubset a (ASet b) = issuperset b (ASet a)) by done.
  do 5 (split; [done|]). split; [done|]. split; [apply Hsub|].
  rewrite <- Hsw, !Hsub. unfold set_eq_arg. rewrite bool_decide_eq_true. done.
Qed.

(** [a.isdisjoint(b)] is [b.isdisjoint(a)], and it holds exactly when no
    item is in both sets. *)
Theorem set_isdisjoint_spec (l m : list T) :
  isdisjoint l (ASet m) = isdisjoint m (ASet l) /\
  (isdisjoint l (ASet m) = inr true <-> forall x, x ∈ l -> x ∉ m).
Proof.
  assert (Hd : forall a b : list T, isdisjoint a (ASet b) = inr true <-> forall x, x ∈ a -> x ∉ b).
  { intros a b. unfold isdisjoint. split.
    - intros H. injection H as H. intros x Ha Hb.
      apply (proj1 (forallb_elem _ _) H x) in Hb.
      apply negb_true_iff, bool_decide_eq_false in Hb. done.
    - intros H. f_equal. apply forallb_elem. intros x Hx.
      apply negb_true_iff, bool_decide_eq_false. intros Ha. exact (H x Ha Hx). }
  split; [|apply Hd].
  unfold isdisjoint. f_equal.
  apply eq_true_iff_eq. rewrite <- !Is_true_true.
  split; intros H%Is_true_true.
  - apply Is_true_true. pose proof (proj1 (Hd l m) ltac:(unfold isdisjoint; by rewrite H)) as H1.
    apply (proj2 (forallb_elem _ _)). intros x Hx. apply negb_true_iff, bool_decide_eq_false.
    intros Hm. exact (H1 x Hx Hm).
  - apply Is_true_true. apply (proj2 (forallb_elem _ _)). intros x Hx.
    apply negb_true_iff, bool_decide_eq_false. intros Hm.
    apply (proj1 (forallb_elem _ _) H x) in Hm.
    apply negb_true_iff, bool_decide_eq_false in Hm. done.
Qed.


(** Lookups in a heap given as a chain of insertions. *)
Ltac heap_lookups :=
  repeat (cbn [objs next_id items cls] in *;
    match goal with
    | |- context [<[?i := ?x]> ?m !! ?j] =>
        first [ rewrite (lookup_insert_eq m i x)
              | rewrite (lookup_insert_ne m i j x) by lia ]
    | |- context [decide (?i = ?j)] =>
        first [ rewrite (decide_True (P := i = j)) by reflexivity
              | rewrite (decide_False (P := i = j)) by lia ]
    | H : objs ?h !! ?i = Some _ |- context [objs ?h !! ?i] => rewrite H
    end).

Lemma fold_add_covered (l acc : list T) : l ⊆ acc -> fold_left add_item l acc = acc.
Proof.
  revert acc. induction l as [|x l IH]; intros acc Hl; simpl; [done|].
  unfold add_item at 2. rewrite decide_True by (apply Hl; left).
  apply IH. intros y Hy. apply Hl. by right.
Qed.

Lemma fold_keep_covered (O l acc : list T) : l ⊆ O ->
  fold_left (fun acc x => if decide (x ∈ O) then acc else discard_item acc x) l acc = acc.
Proof.
  revert acc. induction l as [|x l IH]; intros acc Hl; simpl; [done|].
  rewrite decide_True by (apply Hl; left). apply IH. intros y Hy. apply Hl. by right.
Qed.

Lemma fold_discard_self (l : list T) : fold_left discard_item l l = [].
Proof.
  apply elem_of_nil_inv. intros x. rewrite elem_fold_discard. tauto.
Qed.

(** The in-place operator [a |= b] (and [&=], [+=], [-=], [^=]) returns
    [a] itself, holding the same items, in the same order, as the fresh
    set [a | b] (resp. [&], [+], [-], [^]) would; this also holds for
    [a] op [a], where the update methods take their guarded self path. *)
Theorem set_inplace_matches_binop (cc : nat -> option nat) (op : binop) (h : @Heap T)
    (a b : nat) (A B : SetObj) :
  heap_wf h -> objs h !! a = Some A -> objs h !! b = Some B ->
  exists h1 h2 R A',
    run_binop cc op h a b = Some (h1, next_id h) /\ inplace cc op h a b = Some (h2, a) /\
    objs h1 !! next_id h = Some R /\ objs h2 !! a = Some A' /\
    items R = items A' /\ cls A' = cls A.
Proof.
  intros Hwf Ea Eb. pose proof (Hwf _ _ Ea). pose proof (Hwf _ _ Eb).
  rewrite run_binop_clone, (clone_spec _ _ _ _ Ea). simpl. unfold inplace.
  destruct (decide (a = b)) as [<-|Hab].
  - assert (B = A) by congruence. subst B. clear Eb.
    destruct op; simpl.
    + unfold union_update, set_items. heap_lookups. simpl.
      eexists _, _, _, _. split; [reflexivity|]. split; [reflexivity|].
      heap_lookups. split; [reflexivity|]. split; [reflexivity|]. simpl.
      split; [|done]. apply fold_add_covered. done.
    + unfold intersection_update, set_items. heap_lookups. simpl.
      eexists _, _, _, _. split; [reflexivity|]. split; [reflexivity|].
      heap_lookups. split; [reflexivity|]. split; [reflexivity|]. simpl.
      split; [|done]. apply fold_keep_covered. done.
    + unfold difference_update, set_items. heap_lookups. simpl.
      eexists _, _, _, _. split; [reflexivity|]. split; [reflexivity|].
      heap_lookups. split; [reflexivity|]. split; [reflexivity|]. simpl.
      split; [|done]. apply fold_discard_self.
    + unfold symmetric_difference_update. heap_lookups.
      unfold intersection, clone. heap_lookups. simpl.
      unfold intersection_update, set_items. heap_lookups. simpl.
      unfold union_update, set_items. heap_lookups. simpl.
      unfold difference_update, set_items. heap_lookups. simpl.
      eexists _, _, _, _. split; [reflexivity|]. split; [reflexivity|].
      heap_lookups. split; [reflexivity|]. split; [reflexivity|]. simpl.
      split; [|done]. apply elem_of_nil_inv. intros x.
      rewrite elem_fold_discard, elem_fold_add, elem_fold_keep. tauto.
  - destruct op; simpl.
    + unfold union_update, set_items. heap_lookups. simpl.
      eexists _, _, _, _. split; [reflexivity|]. split; [reflexivity|].
      heap_lookups. split; [reflexivity|]. split; [reflexivity|]. done.
    + unfold intersection_update, set_items. heap_lookups. simpl.
      eexists _, _, _, _. split; [reflexivity|]. split; [reflexivity|].
      heap_lookups. split; [reflexivity|]. split; [reflexivity|]. done.
    + unfold difference_update, set_items. heap_lookups. simpl.
      eexists _, _, _, _. split; [reflexivity|]. split; [reflexivity|].
      heap_lookups. split; [reflexivity|]. split; [reflexivity|]. done.
    + unfold symmetric_difference_update. heap_lookups.
      unfold intersection, clone. heap_lookups. simpl.
      unfold intersection_update, set_items. heap_lookups. simpl.
      unfold union_update, set_items. heap_lookups. simpl.
      unfold difference_update, set_items. heap_lookups. simpl.
      eexists _, _, _, _. split; [reflexivity|]. split; [reflexivity|].
      heap_lookups. split; [reflexivity|]. split; [reflexivity|]. done.
Qed.

End SetExtra.

Section ImmutableExtra.
Import Immutable.
Context {V : Type}.


End ImmutableExtra.


Section ConstifyExtra.
Import ImmutableDict.

(** Induction on Python values through the elements of tuples and lists
    and the entries of dicts. *)
Definition pyval_ind_nested (P : pyval -> Prop)
    (HInt : forall z, P (PInt z)) (HStr : forall s, P (PStr s))
    (HBytes : forall b, P (PBytes b)) (HBytearray : forall b, P (PBytearray b))
    (HTuple : forall l, Forall P l -> P (PTuple l))
    (HList : forall l, Forall P l -> P (PList l))
    (HDict : forall kvs, Forall (fun kv => P kv.1 /\ P kv.2) kvs -> P (PDict kvs))
    (HFrozen : forall kvs, Forall (fun kv => P kv.1 /\ P kv.2) kvs -> P (PFrozenDict kvs))
    (HObject : forall i h, P (PObject i h)) : forall v, P v :=
  fix go (v : pyval) : P v :=
    match v with
    | PInt z => HInt z
    | PStr s => HStr s
    | PBytes b => HBytes b
    | PBytearray b => HBytearray b
    | PTuple l => HTuple l ((fix goes (l : list pyval) : Forall P l :=
                    match l with [] => List.Forall_nil _ | x :: l' => List.Forall_cons _ _ _ (go x) (goes l') end) l)
    | PList l => HList l ((fix goes (l : list pyval) : Forall P l :=
                    match l with [] => List.Forall_nil _ | x :: l' => List.Forall_cons _ _ _ (go x) (goes l') end) l)
    | PDict kvs => HDict kvs ((fix goes (l : list (pyval * pyval))
                       : Forall (fun kv => P kv.1 /\ P kv.2) l :=
                    match l with
                    | [] => List.Forall_nil _
                    | kx :: l' => List.Forall_cons _ kx l' (conj (go kx.1) (go kx.2)) (goes l')
                    end) kvs)
    | PFrozenDict kvs => HFrozen kvs ((fix goes (l : list (pyval * pyval))
                       : Forall (fun kv => P kv.1 /\ P kv.2) l :=
                    match l with
                    | [] => List.Forall_nil _
                    | kx :: l' => List.Forall_cons _ kx l' (conj (go kx.1) (go kx.2)) (goes l')
                    end) kvs)
    | PObject i h => HObject i h
    end.


(** No [bytearray], [list] or [dict] at the top of a value or inside its
    tuples, at any depth. *)
Fixpoint no_mutable (v : pyval) : bool :=
  match v with
  | PBytearray _ | PList _ | PDict _ => false
  | PTuple l => forallb no_mutable l
  | _ => true
  end.

Lemma forallb_map_Forall {A} (f : pyval -> A) (g : A -> bool) (P : pyval -> Prop) (l : list pyval) :
  Forall P l -> (forall x, P x -> g (f x) = true) -> forallb g (map f l) = true.
Proof.
  intros HP Hg. apply forallb_forall. intros y Hy. apply in_map_iff in Hy as [x [<- Hx]].
  apply Hg. rewrite Forall_forall in HP. apply HP, list_elem_of_In, Hx.
Qed.

Lemma hashable_no_mutable (v : pyval) : py_hashable v = true -> no_mutable v = true.
Proof.
  induction v using pyval_ind_nested; simpl; try done.
  intros Hl. apply forallb_forall. intros x Hx. rewrite Forall_forall in H.
  apply H; [by apply list_elem_of_In|]. exact (proj1 (forallb_forall _ _) Hl x Hx).
Qed.

(** [constify] returns a value with no [bytearray], [list] or [dict] at
    the top or inside its tuples; it returns every hashable value
    unchanged, and applying it twice gives the same value as once. *)
Theorem constify_spec (v : pyval) :
  no_mutable (constify v) = true /\ constify (constify v) = constify v /\
  (py_hashable v = true -> constify v = v).
Proof.
  assert (Hfix : forall w, py_hashable w = true -> constify w = w).
  { intros w Hw. destruct w; simpl in *; try done. rewrite Hw. done. }
  split; [|split; [|apply Hfix]].
  - induction v using pyval_ind_nested; simpl; try done.
    + destruct (forallb py_hashable l) eqn:E.
      * apply (hashable_no_mutable (PTuple l)). done.
      * simpl. eapply forallb_map_Forall; [exact H|]. done.
    + eapply forallb_map_Forall; [exact H|]. done.
  - induction v using pyval_ind_nested; simpl; try done.
    + destruct (forallb py_hashable l) eqn:E; simpl; [rewrite E; done|].
      destruct (forallb py_hashable (map constify l)); [done|].
      rewrite map_map. f_equal. apply map_ext_Forall. done.
    + destruct (forallb py_hashable (map constify l)); [done|].
      rewrite map_map. f_equal. apply map_ext_Forall. done.
Qed.

End ConstifyExtra.

Section DictExtra.
Import ImmutableDict.
Context {K V : Type} `{EqDecision K}.

Lemma lookup_setitem (d : list (K * V)) (k k' : K) (v : V) :
  dict_lookup (dict_setitem d k v) k' = if decide (k' = k) then Some v else dict_lookup d k'.
Proof.
  induction d as [|[k1 v1] d IH]; simpl.
  - case_decide; done.
  - destruct (decide (k = k1)) as [->|Hne]; simpl.
    + case_decide; done.
    + rewrite IH. destruct (decide (k' = k1)) as [->|]; [|done].
      rewrite decide_False by congruence. done.
Qed.

Lemma keys_setitem (d : list (K * V)) (k : K) (v : V) :
  map fst (dict_setitem d k v) = if decide (k ∈ map fst d) then map fst d else map fst d ++ [k].
Proof.
  induction d as [|[k1 v1] d IH].
  - case_decide as Hk; [by apply not_elem_of_nil in Hk|done].
  - cbn [dict_setitem]. destruct (decide (k = k1)) as [->|Hne].
    + destruct (decide (k1 ∈ map fst ((k1, v1) :: d))) as [_|Hk]; [done|].
      exfalso. apply Hk. apply elem_of_cons. by left.
    + cbn [map fst]. rewrite IH.
      destruct (decide (k ∈ k1 :: map fst d)) as [Hk|Hk];
      destruct (decide (k ∈ map fst d)) as [Hin|Hout]; try done.
      * apply elem_of_cons in Hk. tauto.
      * exfalso. apply Hk. apply elem_of_cons. by right.
Qed.

Lemma nodup_setitem (d : list (K * V)) (k : K) (v : V) :
  NoDup (map fst d) -> NoDup (map fst (dict_setitem d k v)).
Proof.
  intros Hd. rewrite keys_setitem. case_decide as Hk; [done|].
  apply NoDup_app. split; [done|]. split; [|apply NoDup_singleton].
  intros x Hx Hx'. apply list_elem_of_singleton in Hx'. subst. done.
Qed.

Lemma keys_setitem_elem (d : list (K * V)) (k k' : K) (v : V) :
  k' ∈ map fst (dict_setitem d k v) <-> k' ∈ map fst d \/ k' = k.
Proof.
  rewrite keys_setitem. case_decide as Hk.
  - split; [tauto|]. intros [H1| ->]; done.
  - rewrite elem_of_app, list_elem_of_singleton. done.
Qed.

(** [Dict(pairs)] (copying): each key once, [d[k]] is the value of the
    last pair for [k] ([KeyError] if there is none), and the keys are
    exactly the keys of the pairs. *)
Theorem dict_new_lookup (pairs : list (K * V)) (m : bool) (k : K) :
  let d := Dict_new pairs false m in
  NoDup (map fst (odict d)) /\
  dict_lookup (odict d) k = last (map snd (filter (fun kv => kv.1 = k) pairs)) /\
  (k ∈ map fst (odict d) <-> k ∈ map fst pairs) /\
  (dict_len d <= length pairs)%nat.
Proof.
  intros d. unfold d, Dict_new. simpl. unfold dict_len. simpl. clear d.
  unfold dict_update. generalize k. clear k.
  induction pairs as [|[k1 v1] pairs IH] using rev_ind; intros k.
  - simpl. split; [apply NoDup_nil_2|]. split; [done|]. split; [done|]. done.
  - rewrite fold_left_app. simpl.
    destruct (IH k) as (Hnd & Hlk & Hkeys & Hlen).
    split; [by apply nodup_setitem|]. split; [|split].
    + rewrite lookup_setitem, filter_app, map_app. simpl.
      destruct (decide (k = k1)) as [->|Hne].
      * rewrite filter_cons_True by done. simpl. rewrite last_snoc. done.
      * rewrite filter_cons_False by (simpl; congruence). simpl. rewrite app_nil_r. done.
    + rewrite keys_setitem_elem, map_app. cbn [map fst].
      rewrite elem_of_app, list_elem_of_singleton, Hkeys. tauto.
    + rewrite length_app. simpl. rewrite <- (length_map fst).
      rewrite keys_setitem. case_decide; [rewrite length_map; lia|].
      rewrite length_app, length_map. simpl. lia.
Qed.

Variable hash_key : K -> Z.
Variable key_lt : relation K.
Context `{RelDecision K K key_lt}.




End DictExtra.


Section RendererExtra.
Import Renderer RendererMore.

(** [reserve(size)] raises [ValueError] (changing nothing) for a negative
    size or one above [max_size]; otherwise it moves [size] bytes from
    [max_size] to [reserved], so that [release_reserved] afterwards gives
    the same renderer as [release_reserved] before; two reservations of
    non-negative sizes act as one of their sum, and a second
    [release_reserved] changes nothing. *)
Theorem reserve_release (r : Renderer) (size a b : Z) :
  (size < 0 \/ max_size r < size -> reserve size r = None) /\
  (0 <= size <= max_size r -> exists r',
     reserve size r = Some r' /\ max_size r' = max_size r - size /\
     reserved r' = reserved r + size /\ max_size r' + reserved r' = max_size r + reserved r /\
     release_reserved r' = release_reserved r) /\
  (0 <= a -> 0 <= b -> (reserve a r ≫= reserve b) = reserve (a + b) r) /\
  release_reserved (release_reserved r) = release_reserved r /\
  max_size (release_reserved r) = max_size r + reserved r /\ reserved (release_reserved r) = 0.
Proof.
  unfold reserve, release_reserved, set_limits. destruct r; simpl.
  split; [|split; [|split; [|split; [|split]]]].
  - intros [H|H].
    + rewrite (proj2 (Z.ltb_lt size 0)) by lia. done.
    + destruct (Z.ltb_spec size 0); [done|]. rewrite Z.gtb_ltb, (proj2 (Z.ltb_lt max_size0 size)) by lia. done.
  - intros H. rewrite (proj2 (Z.ltb_ge size 0)) by lia.
    rewrite Z.gtb_ltb, (proj2 (Z.ltb_ge max_size0 size)) by (simpl in H; lia).
    eexists. split; [reflexivity|]. simpl. split; [done|]. split; [done|]. split; [lia|].
    f_equal. lia.
  - intros Ha Hb. rewrite (proj2 (Z.ltb_ge a 0)), (proj2 (Z.ltb_ge (a + b) 0)) by lia.
    rewrite !Z.gtb_ltb.
    destruct (Z.ltb_spec max_size0 a); simpl.
    + rewrite (proj2 (Z.ltb_lt _ (a + b))) by lia. done.
    + rewrite (proj2 (Z.ltb_ge b 0)) by lia. rewrite Z.gtb_ltb. simpl.
      destruct (Z.ltb_spec (max_size0 - a) b); destruct (Z.ltb_spec max_size0 (a + b)); try lia; [done|].
      do 2 f_equal; lia.
  - f_equal. lia.
  - simpl. done.
  - done.
Qed.


Lemma testbit_edns_mask (j : Z) :
  0 <= j -> Z.testbit 4278255615 j = (j <? 16) || ((24 <=? j) && (j <? 32)).
Proof.
  intros Hj. change 4278255615 with (Z.lor (Z.ones 16) (Z.shiftl (Z.ones 8) 24)).
  rewrite Z.lor_spec, Z.testbit_ones_nonneg by lia.
  destruct (Z.ltb_spec j 24).
  - rewrite Z.shiftl_spec, Z.testbit_neg_r by lia. rewrite (proj2 (Z.leb_gt 24 j)) by lia.
    rewrite !orb_false_r. done.
  - rewrite Z.shiftl_spec, Z.testbit_ones_nonneg by lia.
    rewrite (proj2 (Z.leb_le 24 j)), (proj2 (Z.ltb_ge j 16)) by lia. simpl.
    destruct (Z.ltb_spec (j - 24) 8), (Z.ltb_spec j 32); try done; lia.
Qed.

Lemma testbit_small_high (v j : Z) : 0 <= v < 256 -> 8 <= j -> Z.testbit v j = false.
Proof.
  intros Hv Hj. rewrite <- (Z.mod_small v (2 ^ 8)) by lia. rewrite <- Z.land_ones by lia.
  rewrite Z.land_spec, Z.testbit_ones_nonneg by lia.
  rewrite (proj2 (Z.ltb_ge j 8)) by lia. apply andb_false_r.
Qed.

(** [add_edns] adds the OPT record to ADDITIONAL without padding, its TTL
    being [ednsflags] with bits 16 to 23 replaced by [edns]: for a version
    below 256 the version byte reads back as [edns], the other flag bits of
    the low 32 are kept and the TTL is a 32-bit value; a larger version is
    not masked and its high bits are OR-ed into the top flag byte. *)
Theorem add_edns_opt (cd : codec) (edns ednsflags payload : Z) (options : list edns_option) :
  let ttl := Z.lor (Z.land ednsflags 4278255615) (Z.shiftl edns 16) in
  add_edns cd edns ednsflags payload options =
    add_rrset cd ADDITIONAL (_make_opt ttl payload options) /\
  Z.shiftr ttl 24 = Z.lor (Z.land (Z.shiftr ednsflags 24) 255) (Z.shiftr edns 8) /\
  (0 <= edns < 256 ->
     Z.land (Z.shiftr ttl 16) 255 = edns /\
     Z.land ttl 4278255615 = Z.land ednsflags 4278255615 /\
     0 <= ttl < 2 ^ 32).
Proof.
  intros ttl. split; [|split].
  - unfold add_edns, add_opt. case_decide; [congruence|reflexivity].
  - apply Z.bits_inj'. intros i Hi. unfold ttl.
    rewrite Z.shiftr_spec, Z.lor_spec, Z.land_spec, Z.shiftl_spec, testbit_edns_mask by lia.
    change 255 with (Z.ones 8).
    rewrite Z.lor_spec, Z.land_spec, !Z.shiftr_spec, Z.testbit_ones_nonneg by lia.
    replace (i + 24 - 16) with (i + 8) by lia.
    rewrite (proj2 (Z.ltb_ge (i + 24) 16)), (proj2 (Z.leb_le 24 (i + 24))) by lia.
    destruct (Z.ltb_spec (i + 24) 32), (Z.ltb_spec i 8); try lia; done.
  - intros He. unfold ttl.
    assert (Hlow : Z.land ttl (Z.ones 32) = ttl).
    { apply Z.bits_inj'. intros i Hi. unfold ttl.
      rewrite Z.land_spec, Z.testbit_ones_nonneg by lia.
      destruct (Z.ltb_spec i 32); [apply andb_true_r|rewrite andb_false_r].
      rewrite Z.lor_spec, Z.land_spec, Z.shiftl_spec, testbit_edns_mask by lia.
      rewrite (testbit_small_high edns (i - 16)) by lia.
      rewrite (proj2 (Z.ltb_ge i 16)), (proj2 (Z.ltb_ge i 32)) by lia.
      destruct (Z.testbit ednsflags i), (24 <=? i); reflexivity. }
    split; [|split].
    + apply Z.bits_inj'. intros i Hi. change 255 with (Z.ones 8).
      rewrite Z.land_spec, Z.shiftr_spec, Z.lor_spec, Z.land_spec, Z.shiftl_spec,
        testbit_edns_mask, Z.testbit_ones_nonneg by lia.
      replace (i + 16 - 16) with i by lia.
      rewrite (proj2 (Z.ltb_ge (i + 16) 16)) by lia.
      destruct (Z.ltb_spec i 8).
      * rewrite (proj2 (Z.leb_gt 24 (i + 16))) by lia. rewrite andb_false_r. simpl.
        apply andb_true_r.
      * rewrite andb_false_r. symmetry. apply testbit_small_high; lia.
    + apply Z.bits_inj'. intros i Hi.
      rewrite !Z.land_spec, Z.lor_spec, Z.land_spec, Z.shiftl_spec, testbit_edns_mask by lia.
      destruct (Z.ltb_spec i 16).
      * rewrite (Z.testbit_neg_r edns) by lia. simpl. rewrite !andb_true_r, orb_false_r. done.
      * simpl. destruct (Z.leb_spec 24 i), (Z.ltb_spec i 32); simpl;
          rewrite ?andb_false_r, ?andb_true_r; try done.
        rewrite (testbit_small_high edns (i - 16)) by lia. apply orb_false_r.
    + fold ttl. rewrite <- Hlow, Z.land_ones by lia. apply Z.mod_pos_bound. lia.
Qed.

Lemma to_bytes_big_spec (v : Z) (n : nat) :
  0 <= v < 256 ^ Z.of_nat n ->
  length (to_bytes_big v n) = n /\ Forall (fun x => 0 <= x < 256) (to_bytes_big v n) /\
  fold_left (fun acc x => acc * 256 + x) (to_bytes_big v n) 0 = v.
Proof.
  revert v. induction n as [|n IH]; intros v Hv.
  - simpl in *. split; [done|]. split; [constructor|]. lia.
  - rewrite Nat2Z.inj_succ, Z.pow_succ_r in Hv by lia.
    destruct (IH (v / 256)) as (Hl & Hf & Hd).
    { split; [apply Z.div_pos; lia|]. apply Z.div_lt_upper_bound; lia. }
    simpl. rewrite length_app, Hl, fold_left_app, Hd. simpl.
    split; [lia|]. split.
    + apply Forall_app. split; [done|]. constructor; [|constructor]. apply Z.mod_pos_bound. lia.
    + rewrite Z.mul_comm. symmetry. apply Z.div_mod. lia.
Qed.

Lemma write_end (bs : list Z) (r : Renderer) :
  pos (output r) = length (buf (output r)) ->
  write bs r = (inr tt, set_output r (mkBytesIO (buf (output r) ++ bs) (length (buf (output r)) + length bs))).
Proof.
  intros H. unfold write, modify. rewrite bio_write_end by done. rewrite H. done.
Qed.

Lemma prefixed_length_run {A} (n : nat) (body : M A) (r : Renderer) (bs : list Z) (x : A) :
  pos (output r) = length (buf (output r)) ->
  body (set_output r (mkBytesIO (buf (output r) ++ replicate n 0) (length (buf (output r)) + n))) =
    (inr x, set_output r (mkBytesIO (buf (output r) ++ replicate n 0 ++ bs)
                                    (length (buf (output r)) + n + length bs))) ->
  prefixed_length n body r =
    (if decide (bs = []) then
       (inr x, set_output r (mkBytesIO (buf (output r) ++ replicate n 0) (length (buf (output r)) + n)))
     else if decide (Z.of_nat (length bs) < 256 ^ Z.of_nat n) then
       (inr x, set_output r (mkBytesIO (buf (output r) ++ to_bytes_big (Z.of_nat (length bs)) n ++ bs)
                                       (length (buf (output r)) + n + length bs)))
     else
       (inl FormError, set_output r (mkBytesIO (buf (output r) ++ replicate n 0 ++ bs)
                                               (length (buf (output r)) + n + length bs)))).
Proof.
  intros Hp Hb. set (b := buf (output r)). set (L := Z.of_nat (length bs)).
  unfold prefixed_length.
  erewrite bind_inr; [|apply write_end; exact Hp].
  erewrite bind_inr; [|reflexivity].
  rewrite length_replicate.
  erewrite bind_inr; [|exact Hb].
  erewrite bind_inr; [|reflexivity].
  simpl. fold b.
  replace (Z.of_nat (length b + n + length bs) - Z.of_nat (length b + n)) with L by lia.
  destruct (decide (bs = [])) as [->|Hne].
  - simpl. rewrite !app_nil_r, Nat.add_0_r. reflexivity.
  - assert (HL : (L >? 0) = true) by (apply Z.gtb_lt; unfold L; destruct bs; [done|simpl; lia]).
    rewrite HL. replace (length b + n - n)%nat with (length b) by lia.
    destruct (decide (L < 256 ^ Z.of_nat n)) as [Hlt|Hge].
    + rewrite (proj2 (Z.ltb_lt _ _) Hlt).
      destruct (to_bytes_big_spec L n ltac:(unfold L; lia)) as (Hl & _).
      unfold write, modify, bio_write, bio_seek. simpl. rewrite Hl.
      rewrite !length_app, length_replicate.
      replace (length b - _)%nat with 0%nat by lia. simpl. rewrite app_nil_r.
      rewrite take_app_length, app_assoc, drop_app_length'; [done|].
      rewrite length_app, length_replicate. done.
    + rewrite (proj2 (Z.ltb_ge _ _)) by lia. simpl. done.
Qed.

(** [prefixed_length(output, n)] around a body that appends [bs]: [n]
    zero bytes, then [bs]; for a non-empty [bs] shorter than [256 ^ n]
    bytes the zeros become its length, [n] bytes big-endian (which read
    back as the length); an empty body leaves the zeros; a longer one
    raises [FormError] with its bytes kept and the position at their end.
    An exception of the body propagates, the zeros staying written. *)
Theorem prefixed_length_append {A} (n : nat) (body : M A) (r : Renderer) (bs : list Z) (x : A) :
  pos (output r) = length (buf (output r)) ->
  body (set_output r (mkBytesIO (buf (output r) ++ replicate n 0) (length (buf (output r)) + n))) =
    (inr x, set_output r (mkBytesIO (buf (output r) ++ replicate n 0 ++ bs)
                                    (length (buf (output r)) + n + length bs))) ->
  prefixed_length n body r =
    (if decide (bs = []) then
       (inr x, set_output r (mkBytesIO (buf (output r) ++ replicate n 0) (length (buf (output r)) + n)))
     else if decide (Z.of_nat (length bs) < 256 ^ Z.of_nat n) then
       (inr x, set_output r (mkBytesIO (buf (output r) ++ to_bytes_big (Z.of_nat (length bs)) n ++ bs)
                                       (length (buf (output r)) + n + length bs)))
     else
       (inl FormError, set_output r (mkBytesIO (buf (output r) ++ replicate n 0 ++ bs)
                                               (length (buf (output r)) + n + length bs)))) /\
  (forall v, 0 <= v < 256 ^ Z.of_nat n ->
     length (to_bytes_big v n) = n /\ Forall (fun b => 0 <= b < 256) (to_bytes_big v n) /\
     fold_left (fun acc b => acc * 256 + b) (to_bytes_big v n) 0 = v) /\
  (forall (body' : M A) e r1,
     body' (set_output r (mkBytesIO (buf (output r) ++ replicate n 0) (length (buf (output r)) + n))) =
       (inl e, r1) ->
     prefixed_length n body' r = (inl e, r1)).
Proof.
  intros Hp Hb. split; [|split].
  - exact (prefixed_length_run n body r bs x Hp Hb).
  - intros v Hv. exact (to_bytes_big_spec v n Hv).
  - intros body' e r1 He. unfold prefixed_length.
    erewrite bind_inr; [|apply write_end; exact Hp].
    erewrite bind_inr; [|reflexivity].
    rewrite length_replicate. unfold mbind at 1, M_bind at 1. rewrite He. done.
Qed.

Lemma land_ones_range (v : Z) (k : Z) : 0 <= k -> 0 <= Z.land v (Z.ones k) < 2 ^ k.
Proof. intros Hk. rewrite Z.land_ones by done. apply Z.mod_pos_bound. lia. Qed.

Lemma pack_I_ok (v : Z) :
  0 <= v < 2 ^ 32 -> pack_I v = mret (be32 v).
Proof.
  intros Hv. unfold pack_I. rewrite (proj2 (Z.leb_le 0 v)), (proj2 (Z.ltb_lt v _)) by lia.
  simpl. unfold be32. rewrite !Z.shiftr_div_pow2 by lia. change 255 with (Z.ones 8).
  rewrite !Z.land_ones by lia. change (2 ^ 8) with 256.
  rewrite (Z.mod_small (v / 2 ^ 24)); [done|]. split; [apply Z.div_pos; lia|].
  apply Z.div_lt_upper_bound; lia.
Qed.

Section TsigLemmas.
Variable plain : name -> option name -> list Z.

(** The bytes [TSIG._to_wire] writes, field by field: the algorithm name,
    the 48-bit time signed as a 16-bit high and a 32-bit low part, fudge,
    MAC length, MAC, original id, error, other length and other data. *)
Definition tsig_rdata (t : tsig) : list Z :=
  plain (algorithm t) None ++
  be16 (Z.land (Z.shiftr (time_signed t) 32) 65535) ++
  be32 (Z.land (time_signed t) 4294967295) ++
  be16 (fudge t) ++ be16 (Z.of_nat (length (mac t))) ++ mac t ++
  be16 (original_id t) ++ be16 (error t) ++ be16 (Z.of_nat (length (other t))) ++ other t.

(** The field ranges [struct.pack] accepts. *)
Definition tsig_fields_ok (t : tsig) : Prop :=
  0 <= fudge t < 65536 /\ Z.of_nat (length (mac t)) < 65536 /\ 0 <= original_id t < 65536 /\
  0 <= error t < 65536 /\ Z.of_nat (length (other t)) < 65536.

Lemma tsig_to_wire_ok (t : tsig) (r : Renderer) :
  pos (output r) = length (buf (output r)) -> tsig_fields_ok t ->
  tsig_to_wire plain t r =
    (inr tt, set_output r (mkBytesIO (buf (output r) ++ tsig_rdata t)
                                     (length (buf (output r)) + length (tsig_rdata t)))).
Proof.
  intros Hp (Hf & Hm & Ho & He & Hot).
  unfold tsig_to_wire.
  erewrite bind_inr; [|apply write_end; exact Hp].
  rewrite pack_H_ok by (change 65535 with (Z.ones 16); apply land_ones_range; lia).
  rewrite pack_I_ok by (change 4294967295 with (Z.ones 32); apply land_ones_range; lia).
  erewrite bind_inr; [|reflexivity].
  erewrite bind_inr; [|reflexivity].
  erewrite bind_inr; [|apply pack_Hs_ok; repeat constructor; lia].
  erewrite bind_inr; [|apply write_end; simpl; rewrite ?length_app; simpl; lia].
  erewrite bind_inr; [|apply write_end; simpl; rewrite ?length_app; simpl; lia].
  erewrite bind_inr; [|apply pack_Hs_ok; repeat constructor; lia].
  erewrite bind_inr; [|apply write_end; simpl; rewrite ?length_app; simpl; lia].
  rewrite write_end by (simpl; rewrite ?length_app; simpl; lia).
  simpl. unfold tsig_rdata.
  rewrite !be16_pack by (try apply Z.land_nonneg; lia).
  rewrite !length_app, <- !app_assoc. simpl. f_equal. f_equal. f_equal.
  lia.
Qed.

End TsigLemmas.

Lemma bio_write_hdr (B : list Z) (p : nat) (x y : Z) :
  (12 <= length B)%nat ->
  bio_seek (bio_write (bio_seek (mkBytesIO B p) 10) [x; y]) p =
  mkBytesIO (take 10 B ++ [x; y] ++ drop 12 B) p.
Proof.
  intros H. unfold bio_seek, bio_write. simpl.
  replace (10 - length B)%nat with 0%nat by lia. simpl. rewrite app_nil_r. done.
Qed.

Lemma set_output_output (r : Renderer) (o1 o2 : BytesIO) :
  set_output (set_output r o1) o2 = set_output r o2.
Proof. by destruct r. Qed.

Lemma set_output_counts (r : Renderer) (c : list Z) (o : BytesIO) :
  set_output (set_counts r c) o = set_counts (set_output r o) c.
Proof. by destruct r. Qed.

Lemma set_output_compress (r : Renderer) (c : gmap name nat) (o : BytesIO) :
  set_output (set_compress r c) o = set_compress (set_output r o) c.
Proof. by destruct r. Qed.

(** The key name [_write_tsig] writes, and the compression table it leaves:
    uncompressed after padding, through the shared table otherwise. *)
Definition tsig_key_wire (cd : codec) (plain : name -> option name -> list Z) (keyname : name)
    (r : Renderer) : list Z * gmap name nat :=
  if was_padded r then (plain keyname (origin r), compress r)
  else name_to_wire cd keyname (compress r) (origin r) (pos (output r)).

(** The TSIG resource record [_write_tsig] appends: key name, type TSIG,
    class ANY, TTL 0, and the rdata behind its 2-byte length. *)
Definition tsig_record (cd : codec) (plain : name -> option name -> list Z) (t : tsig)
    (keyname : name) (r : Renderer) : list Z :=
  (tsig_key_wire cd plain keyname r).1 ++ be16 TSIG_TYPE ++ be16 ANY_CLASS ++ be32 0 ++
  be16 (Z.of_nat (length (tsig_rdata plain t))) ++ tsig_rdata plain t.

(** [_write_tsig] enters ADDITIONAL and appends the TSIG record: the key
    name (uncompressed after padding, the compression table then being left
    as it was), type TSIG, class ANY, TTL 0, the rdata length and the rdata
    laid out field by field; it increments the ADDITIONAL count and
    rewrites bytes 10 and 11 of the buffer (the header's ARCOUNT) with the
    new count, leaving the position at the end. *)
Theorem write_tsig_appends (cd : codec) (plain : name -> option name -> list Z) (t : tsig)
    (keyname : name) (r : Renderer) :
  pos (output r) = length (buf (output r)) -> hdr_inv r -> tsig_fields_ok t ->
  Z.of_nat (length (tsig_rdata plain t)) < 65536 ->
  0 <= counts r !!! 3%nat < 65535 ->
  Z.of_nat (length (buf (output r)) + length (tsig_record cd plain t keyname r)) <= max_size r ->
  _write_tsig cd plain t keyname r =
    (inr tt, set_counts (set_compress (set_output (set_section_field r ADDITIONAL)
       (mkBytesIO (take 10 (buf (output r)) ++ be16 (counts r !!! 3%nat + 1) ++
                   drop 12 (buf (output r)) ++ tsig_record cd plain t keyname r)
                  (length (buf (output r)) + length (tsig_record cd plain t keyname r))))
       (tsig_key_wire cd plain keyname r).2)
      (<[3%nat := counts r !!! 3%nat + 1]> (counts r))).
Proof.
  intros Hp [Hb12 Hc4] Ht Hrd Hc Hsz.
  unfold _write_tsig.
  erewrite bind_inr; [|reflexivity].
  erewrite bind_inr; [|apply set_section_forward; pose proof (section_index_lt (section_ r)); simpl; lia].
  set (r0 := set_section_field r ADDITIONAL).
  destruct (tsig_key_wire cd plain keyname r) as [kn c1] eqn:Hk.
  assert (Hname : (if was_padded r then gets origin ≫= (fun o => write (plain keyname o))
                   else write_name cd keyname) r0 =
                  (inr tt, set_compress (set_output r0 (mkBytesIO (buf (output r) ++ kn)
                                           (length (buf (output r)) + length kn))) c1)).
  { unfold tsig_key_wire in Hk. destruct (was_padded r).
    - inversion Hk; subst. erewrite bind_inr; [|reflexivity]. apply write_end. exact Hp.
    - unfold write_name. simpl. rewrite Hk. rewrite bio_write_end by exact Hp. rewrite Hp. done. }
  assert (Hne : tsig_rdata plain t <> []).
  { intros H. apply (f_equal length) in H. unfold tsig_rdata in H.
    rewrite !length_app in H. simpl in H. lia. }
  set (L := Z.of_nat (length (tsig_rdata plain t))).
  assert (Hrec : tsig_record cd plain t keyname r =
                 kn ++ [0; 250; 0; 255; 0; 0; 0; 0] ++ [L / 256; L mod 256] ++ tsig_rdata plain t).
  { unfold tsig_record. rewrite Hk. fold L. rewrite (be16_pack L) by lia. reflexivity. }
  rewrite Hrec in Hsz |- *. cbn [fst snd].
  erewrite bind_inr.
  2:{ apply track_size_within.
      - erewrite bind_inr; [|exact Hname].
        erewrite bind_inr; [|apply pack_Hs_ok; repeat constructor; unfold TSIG_TYPE, ANY_CLASS; lia].
        erewrite bind_inr; [|rewrite pack_I_ok by lia; reflexivity].
        erewrite bind_inr; [|apply write_end; simpl; rewrite length_app; done].
        rewrite (prefixed_length_run _ _ _ (tsig_rdata plain t) tt).
        + rewrite decide_False by done. rewrite decide_True by (simpl; lia). reflexivity.
        + simpl. rewrite !length_app. simpl. lia.
        + rewrite tsig_to_wire_ok; [|simpl; rewrite !length_app; simpl; lia|done].
          simpl. rewrite <- !app_assoc, !length_app. simpl. f_equal. f_equal. f_equal. lia.
      - rewrite !length_app in Hsz. simpl in Hsz |- *. rewrite !length_app. simpl. lia. }
  erewrite bind_inr; [|reflexivity].
  unfold _temporarily_seek_to, gets, mbind, M_bind. simpl.
  assert (H3 : <[3%nat:=counts r !!! 3%nat + 1]> (counts r) !!! 3%nat = counts r !!! 3%nat + 1)
    by (apply list_lookup_total_insert_eq; lia).
  rewrite H3, pack_H_ok by lia.
  simpl.
  rewrite bio_write_hdr by (rewrite !length_app; lia).
  repeat rewrite ?set_output_output, ?set_output_counts, ?set_output_compress.
  do 5 f_equal.
  - rewrite <- !app_assoc, take_app_le, drop_app_le by lia.
    fold L. rewrite (Z.mod_small (L / 256)) by (split; [apply Z.div_pos|apply Z.div_lt_upper_bound]; lia).
    rewrite Z.shiftr_div_pow2 by lia.
    replace (Z.land (counts r !!! 3%nat + 1) 255) with ((counts r !!! 3%nat + 1) mod 256)
      by (change 255 with (Z.ones 8); rewrite Z.land_ones by lia; reflexivity).
    unfold TSIG_TYPE, ANY_CLASS, be32. reflexivity.
  - rewrite !length_app. simpl. lia.
Qed.

End RendererExtra.


Lemma serial_add_sub_roundtrip_witness :
  exists t, Serial.serial_add (Serial.mkSerial 250 8) (Serial.OpInt 10) = Serial.ArOk t /\
    Serial.serial_sub t (Serial.OpInt 10) = Serial.ArOk (Serial.mkSerial 250 8) /\
    Serial.serial_iadd (Serial.mkSerial 250 8) (Serial.OpInt 10) = Serial.ArOk t /\
    Serial.serial_isub t (Serial.OpInt 10) = Serial.ArOk (Serial.mkSerial 250 8).
Proof.
  apply (serial_add_sub_roundtrip (Serial.mkSerial 250 8) 10);
    unfold Serial.valid, Serial.half; simpl; lia.
Defined.

Lemma serial_add_increases_witness :
  exists t, Serial.serial_add (Serial.mkSerial 250 8) (Serial.OpInt 100) = Serial.ArOk t /\
    Serial.serial_lt (Serial.mkSerial 250 8) (Serial.OpSerial t) = Serial.Ret true /\
    Serial.serial_gt t (Serial.OpSerial (Serial.mkSerial 250 8)) = Serial.Ret true /\
    Serial.serial_lt t (Serial.OpSerial (Serial.mkSerial 250 8)) = Serial.Ret false.
Proof.
  apply (serial_add_increases (Serial.mkSerial 250 8) 100);
    unfold Serial.valid, Serial.half; simpl; lia.
Defined.

Lemma serial_trichotomy_witness :
  exists lt eq gt,
    Serial.serial_lt (Serial.mkSerial 0 8) (Serial.OpSerial (Serial.mkSerial 128 8)) = Serial.Ret lt /\
    Serial.serial_eq (Serial.mkSerial 0 8) (Serial.OpSerial (Serial.mkSerial 128 8)) = Serial.Ret eq /\
    Serial.serial_gt (Serial.mkSerial 0 8) (Serial.OpSerial (Serial.mkSerial 128 8)) = Serial.Ret gt /\
    if decide ((1 <= 8)%N /\ (128 - 0) mod 2 ^ Z.of_N 8 = Serial.half 8)
    then lt = false /\ eq = false /\ gt = false
    else (Nat.b2n lt + Nat.b2n eq + Nat.b2n gt = 1)%nat.
Proof.
  apply (serial_trichotomy (Serial.mkSerial 0 8) (Serial.mkSerial 128 8));
    [reflexivity| |]; unfold Serial.valid; simpl; lia.
Defined.

Lemma set_update_spec_witness :
  NoDup (PySetMore.update [1; 2]%nat [2; 3; 3]%nat) /\
  (forall y, y ∈ PySetMore.update [1; 2]%nat [2; 3; 3]%nat <-> y ∈ [1; 2]%nat \/ y ∈ [2; 3; 3]%nat) /\
  (exists new, PySetMore.update [1; 2]%nat [2; 3; 3]%nat = [1; 2]%nat ++ new) /\
  NoDup (PySetMore.set_new (Some [3; 3; 1]%nat)) /\
  (forall y, y ∈ PySetMore.set_new (Some [3; 3; 1]%nat) <-> y ∈ [3; 3; 1]%nat) /\
  PySetMore.set_new (T := nat) None = [].
Proof.
  apply (set_update_spec [1; 2]%nat [2; 3; 3]%nat [3; 3; 1]%nat).
  repeat constructor; set_solver.
Defined.

Lemma set_ops_keep_nodup_witness :
  let h := PySet.mkHeap (<[0%nat := PySet.mkSetObj 0 [1; 2]%nat]>
             (<[1%nat := PySet.mkSetObj 0 [2; 3]%nat]> ∅)) 2 in
  PySetMore.heap_nodup h /\
  (forall op h', PySet.run_update (fun _ => None) op h 0 1 = Some h' -> PySetMore.heap_nodup h') /\
  (forall op h' r, PySet.run_binop (fun _ => None) op h 0 1 = Some (h', r) -> PySetMore.heap_nodup h').
Proof.
  intros h. assert (Hn : PySetMore.heap_nodup h).
  { intros i o E. unfold h in E. cbn [PySet.objs] in E.
    rewrite !lookup_insert_Some, lookup_empty in E.
    destruct E as [[_ <-]|[_ [[_ <-]|[_ E]]]]; [| |done]; cbn; repeat constructor; set_solver. }
  split; [exact Hn|]. exact (set_ops_keep_nodup (fun _ => None) h 0 1 Hn).
Defined.

Lemma set_inplace_matches_binop_witness :
  let h := PySet.mkHeap (<[0%nat := PySet.mkSetObj 0 [1; 2]%nat]>
             (<[1%nat := PySet.mkSetObj 0 [2; 3]%nat]> ∅)) 2 in
  PySet.heap_wf h /\
  exists h1 h2 R A',
    PySet.run_binop (fun _ => None) PySet.OpDifference h 0 1 = Some (h1, PySet.next_id h) /\
    PySetMore.inplace (fun _ => None) PySet.OpDifference h 0 1 = Some (h2, 0%nat) /\
    PySet.objs h1 !! PySet.next_id h = Some R /\ PySet.objs h2 !! 0%nat = Some A' /\
    PySet.items R = PySet.items A' /\ PySet.cls A' = 0%nat.
Proof.
  intros h. assert (Hwf : PySet.heap_wf h).
  { intros i o E. unfold h in E. cbn [PySet.objs PySet.next_id] in *.
    rewrite !lookup_insert_Some, lookup_empty in E. cbn.
    destruct E as [[<- _]|[_ [[<- _]|[_ E]]]]; [lia|lia|done]. }
  split; [exact Hwf|].
  exact (set_inplace_matches_binop (T := nat) (fun _ => None) PySet.OpDifference h 0 1
           (PySet.mkSetObj 0 [1; 2]%nat) (PySet.mkSetObj 0 [2; 3]%nat) Hwf eq_refl eq_refl).
Defined.



Lemma prefixed_length_append_witness :
  let r := Renderer.init 0 0 512 None in
  let body := Renderer.write [7; 8; 9] in
  RendererMore.prefixed_length 2 body r =
    (inr tt, Renderer.set_output r (Renderer.mkBytesIO
       (Renderer.buf (Renderer.output r) ++ RendererMore.to_bytes_big 3 2 ++ [7; 8; 9]) 17)) /\
  length (RendererMore.to_bytes_big 3 2) = 2%nat /\
  Forall (fun b => 0 <= b < 256) (RendererMore.to_bytes_big 3 2) /\
  fold_left (fun acc b => acc * 256 + b) (RendererMore.to_bytes_big 3 2) 0 = 3.
Proof.
  intros r body.
  destruct (prefixed_length_append 2 body r [7; 8; 9] tt eq_refl eq_refl) as [H1 [H2 _]].
  rewrite H1. simpl. split; [reflexivity|]. apply H2. lia.
Defined.

Lemma write_tsig_appends_witness :
  let plain := fun (n : Renderer.name) (_ : option Renderer.name) =>
                 fst (Renderer.spec_name_to_wire n ∅ 0) in
  let t := RendererMore.mkTSIG ["hmac-sha256"%string] 1700000000 300 [1; 2; 3] 4660 0 [] in
  let r := Renderer.init 4660 0 512 None in
  RendererMore._write_tsig Renderer.spec_codec plain t ["key"%string] r =
    (inr tt, Renderer.set_counts (Renderer.set_compress
       (Renderer.set_output (Renderer.set_section_field r Renderer.ADDITIONAL)
       (Renderer.mkBytesIO (take 10 (Renderer.buf (Renderer.output r)) ++
           Renderer.be16 (Renderer.counts r !!! 3%nat + 1) ++
           drop 12 (Renderer.buf (Renderer.output r)) ++
           tsig_record Renderer.spec_codec plain t ["key"%string] r)
          (length (Renderer.buf (Renderer.output r)) +
           length (tsig_record Renderer.spec_codec plain t ["key"%string] r))))
       (tsig_key_wire Renderer.spec_codec plain ["key"%string] r).2)
      (<[3%nat := Renderer.counts r !!! 3%nat + 1]> (Renderer.counts r))).
Proof.
  intros plain t r.
  apply write_tsig_appends.
  - reflexivity.
  - split; reflexivity.
  - unfold tsig_fields_ok; simpl; lia.
  - apply Z.ltb_lt. vm_compute. reflexivity.
  - simpl; lia.
  - apply Z.leb_le. vm_compute. reflexivity.
Defined.
